(** * The composable graph query engine

    A shallow embedding of
    [llama_index/query_engine/graph_query_engine.py]: the class
    [ComposableGraphQueryEngine] with its constructor, its two entry points
    [_query] and [_aquery], the resolution routine [_query_index] and the
    expansion rule [_fetch_recursive_nodes].

    The engine object [self] is the state of a small state-and-exception
    monad.  The two routines call each other without any bound in the source,
    so the embedding counts the nesting depth of [_query_index] with a fuel
    argument, and a run that needs more nesting than the fuel allows ends in
    [OutOfFuel]. *)

From Stdlib Require Import ZArith QArith String List.
From stdpp Require Import base option list gmap strings.

Local Open Scope Z_scope.
Local Open Scope string_scope.
Local Open Scope list_scope.

(** ** Data model *)

(** [llama_index.schema]: the two kinds of node the engine tells apart with
    [isinstance(node, IndexNode)].  [IndexNode] is a [TextNode] that carries
    the identifier of another index. *)
Inductive BaseNode : Type :=
| TextNode (text : string)
| IndexNode (text : string) (index_id : string).

(** [NodeWithScore]: the score is an optional number which the engine only
    copies. *)
Record NodeWithScore : Type := mkNodeWithScore {
  node : BaseNode;
  score : option Q
}.

(** Modelled from the spec: the class [Response] is imported from
    [llama_index.response.schema], which is not part of the sources at hand.
    The spec describes a response as the synthesized answer text plus the
    ordered sequence of source fragments that contributed to it. *)
Record Response : Type := mkResponse {
  response : string;
  source_nodes : list NodeWithScore
}.

(** Modelled from the spec: [str(response)], the conversion applied by
    [_fetch_recursive_nodes] to a sub-response, is the answer text of the
    response. *)
Definition Response_str (r : Response) : string := response r.

(** [QueryBundle]: the engine reads [query_str] and hands the bundle on. *)
Record QueryBundle : Type := mkQueryBundle {
  query_str : string
}.

(** Exceptions raised by the collaborators.  [KeyError] is what the graph
    raises for an identifier it does not hold; [EngineError] stands for every
    failure of a query engine or of its construction. *)
Inductive exn : Type :=
| KeyError (key : string)
| EngineError (msg : string).

Inductive result (A : Type) : Type :=
| Ok (a : A)
| Err (e : exn).
Arguments Ok {A} a.
Arguments Err {A} e.

(** [BaseQueryEngine]: the two operations of a query handler the engine
    calls.  [synthesize] takes [additional_source_nodes] as an optional
    argument; [None] is the call that leaves it out. *)
Record BaseQueryEngine : Type := mkQueryEngine {
  retrieve : QueryBundle -> result (list NodeWithScore);
  synthesize : QueryBundle -> list NodeWithScore ->
               option (list NodeWithScore) -> result Response
}.

(** A sub-index: what [isinstance(index, VectorStoreIndex)] answers, and
    [as_query_engine], called either with the keyword [similarity_top_k]
    ([Some k]) or without any argument ([None]). *)
Inductive IndexClass : Type :=
| VectorStoreIndex
| OtherIndex.

Record BaseIndex : Type := mkIndex {
  index_class : IndexClass;
  as_query_engine : option Z -> result BaseQueryEngine
}.

(** Modelled from the spec: [ComposableGraph] is imported from
    [llama_index.indices.composability.graph], which is not part of the
    sources at hand.  The spec gives it a root identifier and a lookup
    [get_index] over a table from identifiers to sub-indices that fails for
    an unknown identifier. *)
Record ComposableGraph : Type := mkGraph {
  root_id : string;
  all_indices : gmap string BaseIndex
}.

(** Modelled from the spec: the callback manager is the observability hook,
    notified at the start and at the end of a query and of a retrieval.  It is
    kept as the log of the notifications, with a counter that names each
    started event. *)
Inductive CBEventType : Type :=
| QUERY
| RETRIEVE.

Inductive EventPayload : Type :=
| NoPayload
| QUERY_STR (s : string)
| NODES (nodes : list NodeWithScore)
| RESPONSE (r : Response).

Inductive CBEvent : Type :=
| EventStart (ty : CBEventType) (payload : EventPayload) (event_id : nat)
| EventEnd (ty : CBEventType) (payload : EventPayload) (event_id : nat).

Record CallbackManager : Type := mkCallbackManager {
  next_event_id : nat;
  event_log : list CBEvent
}.

(** The engine object: the four attributes [__init__] sets, and the callback
    manager, which is the one object of the graph's service context. *)
Record ComposableGraphQueryEngine : Type := mkEngine {
  _graph : ComposableGraph;
  _custom_query_engines : gmap string BaseQueryEngine;
  _recursive : bool;
  _similarity_top_k : Z;
  callback_manager : CallbackManager
}.

(** Modelled from the spec: [DEFAULT_SIMILARITY_TOP_K] is imported from
    [llama_index.constants], which is not part of the sources at hand; the
    spec calls it a fixed library constant.  Nothing below depends on its
    value. *)
Definition DEFAULT_SIMILARITY_TOP_K : Z := 2.

(** [__init__]: [custom_query_engines or {}]. *)
Definition __init__ (graph : ComposableGraph)
    (custom_query_engines : option (gmap string BaseQueryEngine))
    (recursive : bool) (similarity_top_k : Z)
    (graph_callback_manager : CallbackManager) : ComposableGraphQueryEngine :=
  {| _graph := graph;
     _custom_query_engines := default ∅ custom_query_engines;
     _recursive := recursive;
     _similarity_top_k := similarity_top_k;
     callback_manager := graph_callback_manager |}.

(** ** The monad of the methods *)

Inductive outcome (A : Type) : Type :=
| Ret (a : A)
| Raise (e : exn)
| OutOfFuel.
Arguments Ret {A} a.
Arguments Raise {A} e.
Arguments OutOfFuel {A}.

Definition M (A : Type) : Type :=
  ComposableGraphQueryEngine -> outcome A * ComposableGraphQueryEngine.

Definition ret {A} (a : A) : M A := fun self => (Ret a, self).

Definition bind {A B} (m : M A) (k : A -> M B) : M B :=
  fun self =>
    match m self with
    | (Ret a, self') => k a self'
    | (Raise e, self') => (Raise e, self')
    | (OutOfFuel, self') => (OutOfFuel, self')
    end.

Definition raise {A} (e : exn) : M A := fun self => (Raise e, self).

Definition out_of_fuel {A} : M A := fun self => (OutOfFuel, self).

Definition gets {A} (f : ComposableGraphQueryEngine -> A) : M A :=
  fun self => (Ret (f self), self).

Definition lift {A} (r : result A) : M A :=
  match r with
  | Ok a => ret a
  | Err e => raise e
  end.

Declare Scope engine_scope.
Delimit Scope engine_scope with engine.
Notation "'let!' x ':=' m 'in' k" := (bind m (fun x => k))
  (at level 10, x pattern, m at level 100, k at level 200) : engine_scope.
Notation "'do!' m 'in' k" := (bind m (fun _ => k))
  (at level 10, m at level 100, k at level 200) : engine_scope.
Local Open Scope engine_scope.

(** ** Collaborators *)

(** Python's [a or b] on an optional string: [b] when [a] is [None] or the
    empty string. *)
Definition str_truthy (s : string) : bool :=
  match s with
  | EmptyString => false
  | String _ _ => true
  end.

Definition or_else (a : option string) (b : string) : string :=
  match a with
  | Some s => if str_truthy s then s else b
  | None => b
  end.

(** Modelled from the spec: [ComposableGraph.get_index], which fails for an
    identifier the graph does not hold. *)
Definition get_index (graph : ComposableGraph) (index_id : string)
    : result BaseIndex :=
  match all_indices graph !! index_id with
  | Some index => Ok index
  | None => Err (KeyError index_id)
  end.

(** Modelled from the spec: [CallbackManager.on_event_start] and
    [on_event_end] record the notification and have no other effect;
    [on_event_start] returns the name of the event it starts. *)
Definition on_event_start (ty : CBEventType) (payload : EventPayload) : M nat :=
  fun self =>
    let cm := callback_manager self in
    let event_id := next_event_id cm in
    (Ret event_id,
     {| _graph := _graph self;
        _custom_query_engines := _custom_query_engines self;
        _recursive := _recursive self;
        _similarity_top_k := _similarity_top_k self;
        callback_manager :=
          {| next_event_id := S event_id;
             event_log := event_log cm ++ [EventStart ty payload event_id] |}
     |}).

Definition on_event_end (ty : CBEventType) (payload : EventPayload)
    (event_id : nat) : M unit :=
  fun self =>
    let cm := callback_manager self in
    (Ret tt,
     {| _graph := _graph self;
        _custom_query_engines := _custom_query_engines self;
        _recursive := _recursive self;
        _similarity_top_k := _similarity_top_k self;
        callback_manager :=
          {| next_event_id := next_event_id cm;
             event_log := event_log cm ++ [EventEnd ty payload event_id] |}
     |}).

(** ** The methods *)

Section Body.

(** The recursive call of [_query_index] made by
    [_fetch_recursive_nodes]. *)
Variable query_index_rec : QueryBundle -> option string -> Z -> M Response.

(** [_fetch_recursive_nodes] (lines 105-128). *)
Definition _fetch_recursive_nodes_body (node_with_score : NodeWithScore)
    (query_bundle : QueryBundle) (level : Z)
    : M (NodeWithScore * list NodeWithScore) :=
  match node node_with_score with
  | IndexNode _ index_id =>
      let! response := query_index_rec query_bundle (Some index_id) (level + 1) in
      let new_node := TextNode (Response_str response) in
      let new_node_with_score :=
        {| node := new_node; score := score node_with_score |} in
      ret (new_node_with_score, source_nodes response)
  | TextNode _ => ret (node_with_score, [])
  end.

(** The loop of lines 84-91, started with two empty accumulators:
    [append] and [extend] add at the end. *)
Fixpoint for_node_with_score (nodes : list NodeWithScore)
    (query_bundle : QueryBundle) (level : Z)
    (nodes_for_synthesis additional_source_nodes : list NodeWithScore)
    : M (list NodeWithScore * list NodeWithScore) :=
  match nodes with
  | [] => ret (nodes_for_synthesis, additional_source_nodes)
  | node_with_score :: rest =>
      let! (node_with_score', source_nodes) :=
        _fetch_recursive_nodes_body node_with_score query_bundle level in
      for_node_with_score rest query_bundle level
        (nodes_for_synthesis ++ [node_with_score'])
        (additional_source_nodes ++ source_nodes)
  end.

(** The choice of the query engine (lines 63-72).  The graph is asked for
    the index once for the [isinstance] test and once more for
    [as_query_engine]. *)
Definition get_query_engine (index_id : string) : M BaseQueryEngine :=
  let! custom_query_engines := gets _custom_query_engines in
  match custom_query_engines !! index_id with
  | Some query_engine => ret query_engine
  | None =>
      let! graph := gets _graph in
      let! index := lift (get_index graph index_id) in
      match index_class index with
      | VectorStoreIndex =>
          let! index' := lift (get_index graph index_id) in
          let! similarity_top_k := gets _similarity_top_k in
          lift (as_query_engine index' (Some similarity_top_k))
      | OtherIndex =>
          let! index' := lift (get_index graph index_id) in
          lift (as_query_engine index' None)
      end
  end.

(** Lines 74-103: what [_query_index] does once the query engine is
    chosen. *)
Definition retrieve_and_synthesize (query_engine : BaseQueryEngine)
    (query_bundle : QueryBundle) (level : Z) (event_id : nat) : M Response :=
  let! retrieve_event_id := on_event_start RETRIEVE NoPayload in
  let! nodes := lift (retrieve query_engine query_bundle) in
  do! on_event_end RETRIEVE (NODES nodes) retrieve_event_id in
  let! recursive := gets _recursive in
  let! response :=
    (if recursive : bool then
       let! (nodes_for_synthesis, additional_source_nodes) :=
         for_node_with_score nodes query_bundle level [] [] in
       lift (synthesize query_engine query_bundle nodes_for_synthesis
               (Some additional_source_nodes))
     else
       lift (synthesize query_engine query_bundle nodes None)) in
  do! on_event_end QUERY (RESPONSE response) event_id in
  ret response.

(** [_query_index] (lines 51-103). *)
Definition _query_index_body (query_bundle : QueryBundle)
    (index_id : option string) (level : Z) : M Response :=
  let! index_id := gets (fun self => or_else index_id (root_id (_graph self))) in
  let! event_id := on_event_start QUERY (QUERY_STR (query_str query_bundle)) in
  let! query_engine := get_query_engine index_id in
  retrieve_and_synthesize query_engine query_bundle level event_id.

End Body.

(** The nesting of [_query_index] inside [_fetch_recursive_nodes] inside
    [_query_index] is unbounded in the source; [fuel] is the number of nested
    activations of [_query_index] a run may use. *)
Fixpoint _query_index (fuel : nat) (query_bundle : QueryBundle)
    (index_id : option string) (level : Z) : M Response :=
  match fuel with
  | O => out_of_fuel
  | S fuel' => _query_index_body (_query_index fuel') query_bundle index_id level
  end.

Definition _fetch_recursive_nodes (fuel : nat) (node_with_score : NodeWithScore)
    (query_bundle : QueryBundle) (level : Z)
    : M (NodeWithScore * list NodeWithScore) :=
  _fetch_recursive_nodes_body (_query_index fuel) node_with_score query_bundle level.

(** [_query] (lines 48-49). *)
Definition _query (fuel : nat) (query_bundle : QueryBundle) : M Response :=
  _query_index fuel query_bundle None 0.

(** [_aquery] (lines 45-46) is an [async def] whose body holds no [await]:
    calling it makes a coroutine, and awaiting the coroutine runs the body to
    its end. *)
Inductive Coroutine (A : Type) : Type :=
| Coro (body : M A).
Arguments Coro {A} body.

Definition await {A} (c : Coroutine A) : M A :=
  match c with
  | Coro body => body
  end.

Definition _aquery (fuel : nat) (query_bundle : QueryBundle)
    : Coroutine Response :=
  Coro (_query_index fuel query_bundle None 0).

(** ** Reading outcomes *)

Definition outcome_of_result {A} (r : result A) : outcome A :=
  match r with
  | Ok a => Ret a
  | Err e => Raise e
  end.

Definition is_index_node (n : BaseNode) : bool :=
  match n with
  | IndexNode _ _ => true
  | TextNode _ => false
  end.

(** The attributes of the engine set by [__init__]. *)
Definition config (self : ComposableGraphQueryEngine)
    : ComposableGraph * gmap string BaseQueryEngine * bool * Z :=
  (_graph self, _custom_query_engines self, _recursive self,
   _similarity_top_k self).

(** The expansion rule applied to each fragment in turn, first to last: the
    pairs it returns, in the order of the fragments. *)
Fixpoint expand_each (fuel : nat) (query_bundle : QueryBundle) (level : Z)
    (nodes : list NodeWithScore)
    : M (list (NodeWithScore * list NodeWithScore)) :=
  match nodes with
  | [] => ret []
  | node_with_score :: rest =>
      let! expanded :=
        _fetch_recursive_nodes fuel node_with_score query_bundle level in
      let! others := expand_each fuel query_bundle level rest in
      ret (expanded :: others)
  end.

(** A computation is [framed] when it leaves the configuration of the engine
    as it found it. *)
Definition framed {A} (m : M A) : Prop :=
  forall s, config (snd (m s)) = config s.

(** The choice of the query engine (lines 63-72) as a function of the
    engine's attributes. *)
Definition chosen_query_engine (self : ComposableGraphQueryEngine)
    (index_id : string) : outcome BaseQueryEngine :=
  match _custom_query_engines self !! index_id with
  | Some query_engine => Ret query_engine
  | None =>
      match all_indices (_graph self) !! index_id with
      | None => Raise (KeyError index_id)
      | Some index =>
          match index_class index with
          | VectorStoreIndex =>
              outcome_of_result
                (as_query_engine index (Some (_similarity_top_k self)))
          | OtherIndex => outcome_of_result (as_query_engine index None)
          end
      end
  end.

(** Two outcomes of one kind, with related results. *)
Definition outcome_rel {A} (R : A -> A -> Prop) (o1 o2 : outcome A) : Prop :=
  match o1, o2 with
  | Ret a, Ret b => R a b
  | Raise e1, Raise e2 => e1 = e2
  | OutOfFuel, OutOfFuel => True
  | _, _ => False
  end.

(** Two computations run side by side from states related by [RS]: their
    outcomes are of one kind with results related by [R], and the states they
    end in are related by [RS] again. *)
Definition related
    (RS : ComposableGraphQueryEngine -> ComposableGraphQueryEngine -> Prop)
    {A} (R : A -> A -> Prop) (m1 m2 : M A) : Prop :=
  forall s s', RS s s' ->
    outcome_rel R (fst (m1 s)) (fst (m2 s')) /\ RS (snd (m1 s)) (snd (m2 s')).

(** [m2] extends [m1]: wherever [m1] ends, with a result or an exception,
    [m2] ends in the same way in the same state. *)
Definition extends {A} (m1 m2 : M A) : Prop :=
  forall s, fst (m1 s) <> OutOfFuel -> m2 s = m1 s.

(** Two engine states of one configuration. *)
Definition same_config (s s' : ComposableGraphQueryEngine) : Prop :=
  config s = config s'.

(** The state once the start of the query is notified, and the state once the
    retrieval is notified at its start and at its end. *)
Definition after_query_start (self : ComposableGraphQueryEngine)
    (q : QueryBundle) : ComposableGraphQueryEngine :=
  snd (on_event_start QUERY (QUERY_STR (query_str q)) self).

Definition after_retrieve (self : ComposableGraphQueryEngine)
    (nodes : list NodeWithScore) : ComposableGraphQueryEngine :=
  snd (on_event_end RETRIEVE (NODES nodes)
         (next_event_id (callback_manager self))
         (snd (on_event_start RETRIEVE NoPayload self))).

(** ** Concrete graphs *)

(** The graphs the statements below are run on.  The first is the one of the
    spec's scenario: a vector index [A] at the root whose retrieval returns
    one placeholder for [B] with score 0.9, and a generic index [B] whose
    retrieval returns the plain fragment [hello] with score 0.5 and whose
    answer is [hello world]. *)
Module Scenario.

Definition text_of (nws : NodeWithScore) : string :=
  match node nws with
  | TextNode t => t
  | IndexNode t _ => t
  end.

(** A query engine with a fixed retrieval and a fixed answer; the sources of
    its response are the fragments it was given, then the additional ones. *)
Definition fixed_engine (retrieved : list NodeWithScore) (answer : string)
    : BaseQueryEngine :=
  {| retrieve := fun _ => Ok retrieved;
     synthesize := fun _ nodes additional =>
       Ok {| response := answer;
             source_nodes := nodes ++ default [] additional |} |}.

(** A query engine with a fixed retrieval whose answer is the texts of the
    fragments it was given. *)
Definition echo_engine (retrieved : list NodeWithScore) : BaseQueryEngine :=
  {| retrieve := fun _ => Ok retrieved;
     synthesize := fun _ nodes additional =>
       Ok {| response := String.concat ", " (map text_of nodes);
             source_nodes := nodes ++ default [] additional |} |}.

Definition frag_hello : NodeWithScore :=
  {| node := TextNode "hello"; score := Some (1 # 2)%Q |}.

Definition placeholder (index_id : string) : NodeWithScore :=
  {| node := IndexNode "summary" index_id; score := Some (9 # 10)%Q |}.

Definition engine_B : BaseQueryEngine := fixed_engine [frag_hello] "hello world".

(** A vector index hands out its engine when given a top-k, a generic one
    when given none. *)
Definition vector_index (qe : BaseQueryEngine) : BaseIndex :=
  {| index_class := VectorStoreIndex;
     as_query_engine := fun top_k =>
       match top_k with
       | Some _ => Ok qe
       | None => Err (EngineError "top-k missing")
       end |}.

Definition generic_index (qe : BaseQueryEngine) : BaseIndex :=
  {| index_class := OtherIndex;
     as_query_engine := fun top_k =>
       match top_k with
       | Some _ => Err (EngineError "top-k unexpected")
       | None => Ok qe
       end |}.

Definition graph : ComposableGraph :=
  {| root_id := "A";
     all_indices :=
       <["A" := vector_index (echo_engine [placeholder "B"])]>
         {["B" := generic_index engine_B]} |}.

Definition no_events : CallbackManager :=
  {| next_event_id := 0; event_log := [] |}.

Definition query : QueryBundle := {| query_str := "what does B hold?" |}.

Definition engine : ComposableGraphQueryEngine :=
  __init__ graph None true DEFAULT_SIMILARITY_TOP_K no_events.

Definition flat_engine : ComposableGraphQueryEngine :=
  __init__ graph None false DEFAULT_SIMILARITY_TOP_K no_events.

(** Custom engines: one registered for the root [A], one registered for an
    identifier [X] the graph does not hold. *)
Definition custom_engine : BaseQueryEngine :=
  fixed_engine [frag_hello] "custom answer".

Definition engine_custom_A : ComposableGraphQueryEngine :=
  __init__ graph (Some {["A" := custom_engine]}) true
    DEFAULT_SIMILARITY_TOP_K no_events.

Definition engine_custom_X : ComposableGraphQueryEngine :=
  __init__ graph (Some {["X" := custom_engine]}) true
    DEFAULT_SIMILARITY_TOP_K no_events.

(** A graph of the single index [B]. *)
Definition single_graph : ComposableGraph :=
  {| root_id := "B"; all_indices := {["B" := generic_index engine_B]} |}.

(** A graph whose root retrieves a placeholder for the root itself. *)
Definition cyclic_graph : ComposableGraph :=
  {| root_id := "A";
     all_indices :=
       {["A" := generic_index (echo_engine [frag_hello; placeholder "A"])]} |}.

Definition cyclic_engine : ComposableGraphQueryEngine :=
  __init__ cyclic_graph None true DEFAULT_SIMILARITY_TOP_K no_events.

(** A graph whose root retrieves a placeholder for [Z], which nothing
    holds. *)
Definition dangling_graph : ComposableGraph :=
  {| root_id := "A";
     all_indices :=
       {["A" := generic_index (echo_engine [frag_hello; placeholder "Z"])]} |}.

Definition dangling_engine (recursive : bool) : ComposableGraphQueryEngine :=
  __init__ dangling_graph None recursive DEFAULT_SIMILARITY_TOP_K no_events.

(** A graph that holds an index under the empty identifier, apart from its
    root. *)
Definition empty_key_graph : ComposableGraph :=
  {| root_id := "B";
     all_indices :=
       <[EmptyString := generic_index custom_engine]>
         {["B" := generic_index engine_B]} |}.

Definition empty_key_engine : ComposableGraphQueryEngine :=
  __init__ empty_key_graph None true DEFAULT_SIMILARITY_TOP_K no_events.

End Scenario.

(** ** Predicates of the further properties *)

(** What the expansion rule makes of a fragment [nws]: a fragment [nws'] of
    the same score that is no placeholder, and [nws] itself when [nws] is no
    placeholder. *)
Definition expanded_from (nws nws' : NodeWithScore) : Prop :=
  score nws' = score nws
  /\ is_index_node (node nws') = false
  /\ (is_index_node (node nws) = false -> nws' = nws).

(** A computation is [appending] when the log of the callback manager it
    ends with is the log it started with, followed by more events. *)
Definition appending {A} (m : M A) : Prop :=
  forall s, exists more,
    event_log (callback_manager (snd (m s)))
    = event_log (callback_manager s) ++ more.

(** The identifiers a retrieval points to: the resolved targets of the
    placeholders among [nodes]. *)
Definition targets (root : string) (nodes : list NodeWithScore) : list string :=
  omap (fun nws =>
          match node nws with
          | IndexNode _ target => Some (or_else (Some target) root)
          | TextNode _ => None
          end) nodes.

(** The height of the identifiers of [Scenario.graph]: [A] points to [B]. *)
Definition scenario_rank (index_id : string) : nat :=
  if decide (index_id = "A") then 1%nat else 0%nat.

(** A graph whose root retrieves a plain fragment and a placeholder for
    [B], whose engine fails to retrieve. *)
Definition failing_engine : BaseQueryEngine :=
  {| retrieve := fun _ => Err (EngineError "retrieval failed");
     synthesize := fun _ nodes additional =>
       Ok {| response := "unreachable"; source_nodes := nodes |} |}.

Definition broken_graph : ComposableGraph :=
  {| root_id := "A";
     all_indices :=
       <["A" := Scenario.generic_index
                  (Scenario.echo_engine
                     [Scenario.frag_hello; Scenario.placeholder "B"])]>
         {["B" := Scenario.generic_index failing_engine]} |}.

Definition broken_engine : ComposableGraphQueryEngine :=
  __init__ broken_graph None true DEFAULT_SIMILARITY_TOP_K Scenario.no_events.

(** The numbers of events started and of events ended in a stretch of the
    log. *)
Fixpoint count_starts (events : list CBEvent) : nat :=
  match events with
  | [] => 0%nat
  | EventStart _ _ _ :: rest => S (count_starts rest)
  | EventEnd _ _ _ :: rest => count_starts rest
  end.

Fixpoint count_ends (events : list CBEvent) : nat :=
  match events with
  | [] => 0%nat
  | EventStart _ _ _ :: rest => count_ends rest
  | EventEnd _ _ _ :: rest => S (count_ends rest)
  end.

(** A computation is [settled] when the events it adds to the log end every
    event they start if it returns, and end no more events than they start
    otherwise. *)
Definition settled {A} (m : M A) : Prop :=
  forall s, exists more,
    event_log (callback_manager (snd (m s)))
    = event_log (callback_manager s) ++ more
    /\ match fst (m s) with
       | Ret _ => count_starts more = count_ends more
       | _ => (count_ends more <= count_starts more)%nat
       end.

(** ** Stepping through the monad *)

Lemma bind_ret_l {A B} (m : M A) (k : A -> M B) s a s' :
  m s = (Ret a, s') -> bind m k s = k a s'.
Proof. intros H. unfold bind. rewrite H. reflexivity. Qed.

Lemma bind_raise_l {A B} (m : M A) (k : A -> M B) s e s' :
  m s = (Raise e, s') -> bind m k s = (Raise e, s').
Proof. intros H. unfold bind. rewrite H. reflexivity. Qed.

Lemma bind_out_of_fuel_l {A B} (m : M A) (k : A -> M B) s s' :
  m s = (OutOfFuel, s') -> bind m k s = (OutOfFuel, s').
Proof. intros H. unfold bind. rewrite H. reflexivity. Qed.

Lemma lift_run {A} (r : result A) s : lift r s = (outcome_of_result r, s).
Proof. destruct r; reflexivity. Qed.

(** ** The frame of the monadic operations *)

Create HintDb engine.

Lemma framed_ret {A} (a : A) : framed (ret a).
Proof. intros s. reflexivity. Qed.

Lemma framed_raise {A} (e : exn) : framed (@raise A e).
Proof. intros s. reflexivity. Qed.

Lemma framed_out_of_fuel {A} : framed (@out_of_fuel A).
Proof. intros s. reflexivity. Qed.

Lemma framed_gets {A} (f : ComposableGraphQueryEngine -> A) : framed (gets f).
Proof. intros s. reflexivity. Qed.

Lemma framed_lift {A} (r : result A) : framed (lift r).
Proof. destruct r; intros s; reflexivity. Qed.

Lemma framed_on_event_start ty payload : framed (on_event_start ty payload).
Proof. intros s. reflexivity. Qed.

Lemma framed_on_event_end ty payload event_id :
  framed (on_event_end ty payload event_id).
Proof. intros s. reflexivity. Qed.

Lemma framed_bind {A B} (m : M A) (k : A -> M B) :
  framed m -> (forall a, framed (k a)) -> framed (bind m k).
Proof.
  intros Hm Hk s. unfold bind. specialize (Hm s).
  destruct (m s) as [[a | e |] s1]; simpl in *; try assumption.
  rewrite Hk. assumption.
Qed.

#[local] Hint Resolve framed_ret framed_raise framed_out_of_fuel framed_gets
  framed_lift framed_on_event_start framed_on_event_end : engine.

Ltac framed_step :=
  first
    [ apply framed_bind; [ | intros ? ]
    | progress auto with engine ].

Lemma framed_get_query_engine index_id : framed (get_query_engine index_id).
Proof.
  unfold get_query_engine.
  apply framed_bind; [auto with engine | intros custom].
  destruct (custom !! index_id); [auto with engine | ].
  apply framed_bind; [auto with engine | intros graph].
  apply framed_bind; [auto with engine | intros index].
  destruct (index_class index); repeat framed_step.
Qed.

Section FramedBody.

Variable rec : QueryBundle -> option string -> Z -> M Response.
Hypothesis framed_rec : forall q id level, framed (rec q id level).

Lemma framed_fetch_recursive_nodes_body nws q level :
  framed (_fetch_recursive_nodes_body rec nws q level).
Proof.
  unfold _fetch_recursive_nodes_body.
  destruct (node nws); repeat framed_step.
Qed.

Lemma framed_for_node_with_score nodes q level acc srcs :
  framed (for_node_with_score rec nodes q level acc srcs).
Proof.
  revert acc srcs.
  induction nodes as [| nws rest IH]; intros acc srcs; simpl.
  - auto with engine.
  - apply framed_bind; [apply framed_fetch_recursive_nodes_body | ].
    intros [nws' more]. apply IH.
Qed.

Lemma framed_retrieve_and_synthesize qe q level event_id :
  framed (retrieve_and_synthesize rec qe q level event_id).
Proof.
  unfold retrieve_and_synthesize.
  do 4 (apply framed_bind; [auto with engine | intros ? ]).
  apply framed_bind; [ | intros ?; repeat framed_step ].
  match goal with |- framed (if ?b then _ else _) => destruct b end.
  - apply framed_bind; [apply framed_for_node_with_score | ].
    intros [ns srcs]. auto with engine.
  - auto with engine.
Qed.

Lemma framed_query_index_body q id level :
  framed (_query_index_body rec q id level).
Proof.
  unfold _query_index_body.
  do 2 (apply framed_bind; [auto with engine | intros ? ]).
  apply framed_bind; [apply framed_get_query_engine | intros qe ].
  apply framed_retrieve_and_synthesize.
Qed.

End FramedBody.

Lemma framed_query_index fuel q id level : framed (_query_index fuel q id level).
Proof.
  revert q id level.
  induction fuel as [| fuel IH]; intros q id level; simpl.
  - apply framed_out_of_fuel.
  - apply framed_query_index_body. exact IH.
Qed.

Lemma framed_fetch_recursive_nodes fuel nws q level :
  framed (_fetch_recursive_nodes fuel nws q level).
Proof.
  apply framed_fetch_recursive_nodes_body. apply framed_query_index.
Qed.

Lemma framed_expand_each fuel q level nodes :
  framed (expand_each fuel q level nodes).
Proof.
  induction nodes as [| nws rest IH]; simpl.
  - apply framed_ret.
  - apply framed_bind; [apply framed_fetch_recursive_nodes | intros pr].
    apply framed_bind; [exact IH | intros prs; apply framed_ret].
Qed.

(** ** The choice of the query engine, in closed form *)

Lemma get_query_engine_run index_id self :
  get_query_engine index_id self = (chosen_query_engine self index_id, self).
Proof.
  unfold get_query_engine, chosen_query_engine, bind, gets, get_index. simpl.
  destruct (_custom_query_engines self !! index_id) as [qe |]; [reflexivity | ].
  destruct (all_indices (_graph self) !! index_id) as [index |]; simpl;
    [ | reflexivity ].
  destruct (index_class index); simpl; apply lift_run.
Qed.

Lemma chosen_query_engine_config s s' index_id :
  config s = config s' ->
  chosen_query_engine s index_id = chosen_query_engine s' index_id.
Proof.
  unfold config, chosen_query_engine. intros H.
  injection H as Hg Hc Hr Hk. rewrite Hg, Hc, Hk. reflexivity.
Qed.

(** ** Two runs side by side *)

Lemma outcome_rel_eq {A} (o1 o2 : outcome A) : outcome_rel eq o1 o2 -> o1 = o2.
Proof.
  destruct o1, o2; simpl; intros H; try contradiction; congruence.
Qed.

Lemma outcome_rel_refl {A} (o : outcome A) : outcome_rel eq o o.
Proof. destruct o; simpl; auto. Qed.

Section Related.

(** [RS] relates the engine states of the two runs and [RI] the names the
    callback manager gives to the events it starts in them. *)
Variable RS : ComposableGraphQueryEngine -> ComposableGraphQueryEngine -> Prop.
Variable RI : nat -> nat -> Prop.

Hypothesis RS_config : forall s s', RS s s' -> config s = config s'.
Hypothesis RS_start : forall ty payload s s', RS s s' ->
  RI (next_event_id (callback_manager s)) (next_event_id (callback_manager s'))
  /\ RS (snd (on_event_start ty payload s)) (snd (on_event_start ty payload s')).
Hypothesis RS_end : forall ty payload i j s s', RI i j -> RS s s' ->
  RS (snd (on_event_end ty payload i s)) (snd (on_event_end ty payload j s')).

Lemma related_ret {A} (R : A -> A -> Prop) a b :
  R a b -> related RS R (ret a) (ret b).
Proof. intros H s s' HS. simpl. auto. Qed.

Lemma related_lift {A} (r : result A) : related RS eq (lift r) (lift r).
Proof. intros s s' HS. rewrite !lift_run. simpl. auto using outcome_rel_refl. Qed.

Lemma related_bind {A B} (R : A -> A -> Prop) (R' : B -> B -> Prop)
    (m1 m2 : M A) (k1 k2 : A -> M B) :
  related RS R m1 m2 ->
  (forall a b, R a b -> related RS R' (k1 a) (k2 b)) ->
  related RS R' (bind m1 k1) (bind m2 k2).
Proof.
  intros Hm Hk s s' HS. destruct (Hm s s' HS) as [Ho Hs]. unfold bind.
  destruct (m1 s) as [[a | e |] t], (m2 s') as [[b | e' |] t'];
    simpl in *; try contradiction; auto.
  apply Hk; assumption.
Qed.

Lemma related_gets {A} (f : ComposableGraphQueryEngine -> A) :
  (forall s s', config s = config s' -> f s = f s') ->
  related RS eq (gets f) (gets f).
Proof. intros Hf s s' HS. simpl. auto. Qed.

Lemma related_on_event_start ty payload :
  related RS RI (on_event_start ty payload) (on_event_start ty payload).
Proof. intros s s' HS. destruct (RS_start ty payload s s' HS). auto. Qed.

Lemma related_on_event_end ty payload i j :
  RI i j -> related RS eq (on_event_end ty payload i) (on_event_end ty payload j).
Proof. intros Hi s s' HS. split; [reflexivity | auto]. Qed.

Lemma related_get_query_engine index_id :
  related RS eq (get_query_engine index_id) (get_query_engine index_id).
Proof.
  intros s s' HS. rewrite !get_query_engine_run. simpl.
  rewrite (chosen_query_engine_config s s' index_id) by auto.
  auto using outcome_rel_refl.
Qed.

Section RelatedBody.

Variables rec1 rec2 : QueryBundle -> option string -> Z -> M Response.
Hypothesis related_rec : forall q id level level',
  related RS eq (rec1 q id level) (rec2 q id level').

Lemma related_fetch_recursive_nodes_body nws q level level' :
  related RS eq (_fetch_recursive_nodes_body rec1 nws q level)
             (_fetch_recursive_nodes_body rec2 nws q level').
Proof.
  unfold _fetch_recursive_nodes_body. destruct (node nws) as [t | t iid].
  - apply related_ret. reflexivity.
  - eapply related_bind; [apply related_rec | ].
    intros r ? <-. apply related_ret. reflexivity.
Qed.

Lemma related_for_node_with_score nodes q level level' acc srcs :
  related RS eq (for_node_with_score rec1 nodes q level acc srcs)
             (for_node_with_score rec2 nodes q level' acc srcs).
Proof.
  revert acc srcs.
  induction nodes as [| nws rest IH]; intros acc srcs; simpl.
  - apply related_ret. reflexivity.
  - eapply related_bind; [apply related_fetch_recursive_nodes_body | ].
    intros [nws' more] ? <-. apply IH.
Qed.

Lemma related_retrieve_and_synthesize qe q level level' i j :
  RI i j ->
  related RS eq (retrieve_and_synthesize rec1 qe q level i)
             (retrieve_and_synthesize rec2 qe q level' j).
Proof.
  intros Hij. unfold retrieve_and_synthesize.
  eapply related_bind; [apply related_on_event_start | intros i' j' Hij' ].
  eapply related_bind; [apply related_lift | intros nodes ? <- ].
  eapply related_bind; [apply related_on_event_end, Hij' | intros _ _ _ ].
  eapply related_bind.
  { apply related_gets. unfold config. intros s s' H. congruence. }
  intros recursive ? <-.
  eapply related_bind with (R := eq).
  - destruct recursive.
    + eapply related_bind; [apply related_for_node_with_score | ].
      intros [ns srcs] ? <-. apply related_lift.
    + apply related_lift.
  - intros r ? <-.
    eapply related_bind; [apply related_on_event_end, Hij | intros _ _ _ ].
    apply related_ret. reflexivity.
Qed.

Lemma related_query_index_body q id level level' :
  related RS eq (_query_index_body rec1 q id level)
             (_query_index_body rec2 q id level').
Proof.
  unfold _query_index_body.
  eapply related_bind.
  { apply related_gets. unfold config. intros s s' H. congruence. }
  intros eid ? <-.
  eapply related_bind; [apply related_on_event_start | intros i j Hij ].
  eapply related_bind; [apply related_get_query_engine | intros qe ? <- ].
  apply related_retrieve_and_synthesize. exact Hij.
Qed.

End RelatedBody.

Lemma related_query_index fuel q id level level' :
  related RS eq (_query_index fuel q id level) (_query_index fuel q id level').
Proof.
  revert q id level level'.
  induction fuel as [| fuel IH]; intros q id level level'; simpl.
  - intros s s' HS. simpl. auto.
  - apply related_query_index_body. exact IH.
Qed.

Lemma related_expand_each fuel q level nodes :
  related RS eq (expand_each fuel q level nodes) (expand_each fuel q level nodes).
Proof.
  induction nodes as [| nws rest IH]; simpl.
  - apply related_ret. reflexivity.
  - eapply related_bind.
    { apply related_fetch_recursive_nodes_body.
      intros. apply related_query_index. }
    intros pr ? <-.
    eapply related_bind; [exact IH | intros prs ? <- ].
    apply related_ret. reflexivity.
Qed.

End Related.

(** With equal states the two runs are one run, whatever the levels. *)
Lemma query_index_level_irrelevant fuel q id level level' self :
  _query_index fuel q id level self = _query_index fuel q id level' self.
Proof.
  destruct (related_query_index eq eq) with (fuel := fuel) (q := q) (id := id)
    (level := level) (level' := level') (s := self) (s' := self)
    as [Ho Hs]; try reflexivity.
  - intros s s' ->. reflexivity.
  - intros ty payload s s' ->. auto.
  - intros ty payload i j s s' -> ->. reflexivity.
  - apply outcome_rel_eq in Ho.
    destruct (_query_index fuel q id level self),
             (_query_index fuel q id level' self).
    simpl in *. congruence.
Qed.

(** With states of one configuration the two runs have one outcome. *)
Lemma query_index_config_only fuel q id level s s' :
  config s = config s' ->
  fst (_query_index fuel q id level s) = fst (_query_index fuel q id level s').
Proof.
  intros H. apply outcome_rel_eq.
  apply (related_query_index same_config (fun _ _ => True)); unfold same_config;
    auto.
Qed.

Lemma expand_each_config_only fuel q level nodes s s' :
  config s = config s' ->
  fst (expand_each fuel q level nodes s) = fst (expand_each fuel q level nodes s').
Proof.
  intros H. apply outcome_rel_eq.
  apply (related_expand_each same_config (fun _ _ => True)); unfold same_config;
    auto.
Qed.

(** ** The loop of [_query_index] and the expansion of each fragment *)

Lemma for_node_with_score_expand_each fuel nodes q level acc srcs s :
  for_node_with_score (_query_index fuel) nodes q level acc srcs s =
  match expand_each fuel q level nodes s with
  | (Ret prs, s') => (Ret (acc ++ map fst prs, srcs ++ concat (map snd prs)), s')
  | (Raise e, s') => (Raise e, s')
  | (OutOfFuel, s') => (OutOfFuel, s')
  end.
Proof.
  revert acc srcs s.
  induction nodes as [| nws rest IH]; intros acc srcs s; simpl.
  - unfold ret. rewrite !app_nil_r. reflexivity.
  - fold (_fetch_recursive_nodes fuel nws q level).
    destruct (_fetch_recursive_nodes fuel nws q level s)
      as [[[nws' more] | e |] s1] eqn:E.
    + rewrite !(bind_ret_l _ _ _ _ _ E), IH.
      destruct (expand_each fuel q level rest s1) as [[prs | e |] s2] eqn:E'.
      * rewrite (bind_ret_l _ _ _ _ _ E'). simpl.
        rewrite <- !app_assoc. reflexivity.
      * rewrite (bind_raise_l _ _ _ _ _ E'). reflexivity.
      * rewrite (bind_out_of_fuel_l _ _ _ _ E'). reflexivity.
    + rewrite !(bind_raise_l _ _ _ _ _ E). reflexivity.
    + rewrite !(bind_out_of_fuel_l _ _ _ _ E). reflexivity.
Qed.

Lemma expand_each_app fuel q level pre rest s prs s1 :
  expand_each fuel q level pre s = (Ret prs, s1) ->
  expand_each fuel q level (pre ++ rest) s =
  match expand_each fuel q level rest s1 with
  | (Ret prs', s') => (Ret (prs ++ prs'), s')
  | (Raise e, s') => (Raise e, s')
  | (OutOfFuel, s') => (OutOfFuel, s')
  end.
Proof.
  revert s prs s1.
  induction pre as [| nws pre IH]; intros s prs s1; simpl.
  - intros [= <- <-]. destruct (expand_each fuel q level rest s) as [[| |] ?];
      reflexivity.
  - destruct (_fetch_recursive_nodes fuel nws q level s)
      as [[pr | e |] s2] eqn:E.
    + rewrite !(bind_ret_l _ _ _ _ _ E).
      destruct (expand_each fuel q level pre s2) as [[prs0 | e |] s3] eqn:E'.
      * rewrite (bind_ret_l _ _ _ _ _ E'). intros [= <- <-].
        unfold bind. rewrite (IH _ _ _ E').
        destruct (expand_each fuel q level rest s3) as [[| |] ?]; reflexivity.
      * rewrite (bind_raise_l _ _ _ _ _ E'). discriminate.
      * rewrite (bind_out_of_fuel_l _ _ _ _ E'). discriminate.
    + rewrite !(bind_raise_l _ _ _ _ _ E). discriminate.
    + rewrite !(bind_out_of_fuel_l _ _ _ _ E). discriminate.
Qed.

(** Fragments that are no placeholders expand to themselves, with no extra
    sources, in a state left as it was. *)
Lemma expand_each_plain fuel q level nodes s :
  Forall (fun nws => is_index_node (node nws) = false) nodes ->
  expand_each fuel q level nodes s = (Ret (map (fun nws => (nws, [])) nodes), s).
Proof.
  intros H. revert s. induction H as [| nws rest Hn _ IH]; intros s; simpl.
  - reflexivity.
  - unfold bind, _fetch_recursive_nodes, _fetch_recursive_nodes_body.
    destruct (node nws); [ | discriminate ].
    simpl. rewrite IH. reflexivity.
Qed.

(** ** One activation of [_query_index], step by step *)

Lemma after_query_start_config self q :
  config (after_query_start self q) = config self.
Proof. reflexivity. Qed.

Lemma after_retrieve_config self nodes :
  config (after_retrieve self nodes) = config self.
Proof. reflexivity. Qed.

Lemma query_index_S fuel q id level self :
  _query_index (S fuel) q id level self =
  match chosen_query_engine self (or_else id (root_id (_graph self))) with
  | Ret qe =>
      retrieve_and_synthesize (_query_index fuel) qe q level
        (next_event_id (callback_manager self)) (after_query_start self q)
  | Raise e => (Raise e, after_query_start self q)
  | OutOfFuel => (OutOfFuel, after_query_start self q)
  end.
Proof.
  simpl. unfold _query_index_body, bind at 1 2. simpl.
  unfold bind at 1. rewrite get_query_engine_run.
  reflexivity.
Qed.

Lemma retrieve_and_synthesize_run rec qe q level event_id s nodes :
  retrieve qe q = Ok nodes ->
  retrieve_and_synthesize rec qe q level event_id s =
  (let! response :=
     (if _recursive s then
        let! (nodes_for_synthesis, additional_source_nodes) :=
          for_node_with_score rec nodes q level [] [] in
        lift (synthesize qe q nodes_for_synthesis (Some additional_source_nodes))
      else lift (synthesize qe q nodes None)) in
   do! on_event_end QUERY (RESPONSE response) event_id in
   ret response) (after_retrieve s nodes).
Proof.
  intros H. unfold retrieve_and_synthesize, bind at 1 2. simpl.
  rewrite H. simpl. unfold bind at 1 2. simpl. reflexivity.
Qed.

Lemma retrieve_and_synthesize_fails rec qe q level event_id s e :
  retrieve qe q = Err e ->
  fst (retrieve_and_synthesize rec qe q level event_id s) = Raise e.
Proof.
  intros H. unfold retrieve_and_synthesize, bind at 1 2. simpl.
  rewrite H. reflexivity.
Qed.

(** The outcome of an activation that expands the retrieved fragments. *)
Lemma retrieve_and_synthesize_recursive fuel qe q level event_id s nodes :
  retrieve qe q = Ok nodes ->
  _recursive s = true ->
  fst (retrieve_and_synthesize (_query_index fuel) qe q level event_id s) =
  match expand_each fuel q level nodes (after_retrieve s nodes) with
  | (Ret prs, _) =>
      outcome_of_result
        (synthesize qe q (map fst prs) (Some (concat (map snd prs))))
  | (Raise e, _) => Raise e
  | (OutOfFuel, _) => OutOfFuel
  end.
Proof.
  intros Hn Hr. rewrite (retrieve_and_synthesize_run _ _ _ _ _ _ _ Hn), Hr.
  unfold bind at 1 2. rewrite for_node_with_score_expand_each.
  destruct (expand_each fuel q level nodes (after_retrieve s nodes))
    as [[prs | e |] s1]; try reflexivity.
  simpl. rewrite lift_run.
  destruct (synthesize qe q (map fst prs) (Some (concat (map snd prs))));
    reflexivity.
Qed.

(** The outcome of an activation that expands nothing. *)
Lemma retrieve_and_synthesize_flat rec qe q level event_id s nodes :
  retrieve qe q = Ok nodes ->
  _recursive s = false ->
  fst (retrieve_and_synthesize rec qe q level event_id s) =
  outcome_of_result (synthesize qe q nodes None).
Proof.
  intros Hn Hr. rewrite (retrieve_and_synthesize_run _ _ _ _ _ _ _ Hn), Hr.
  unfold bind at 1. rewrite lift_run.
  destruct (synthesize qe q nodes None); reflexivity.
Qed.

(** [_query_index] reads its identifier through [index_id or root_id]
    only. *)
Lemma query_index_or_else fuel q id id' level self :
  or_else id (root_id (_graph self)) = or_else id' (root_id (_graph self)) ->
  _query_index fuel q id level self = _query_index fuel q id' level self.
Proof.
  intros H. destruct fuel as [| fuel]; [reflexivity | ].
  rewrite !query_index_S, H. reflexivity.
Qed.

Lemma or_else_root root : or_else (Some root) root = root.
Proof. unfold or_else. destruct (str_truthy root); reflexivity. Qed.

(** ** Fuel *)

(** A run that ends within some fuel ends in the same way within any larger
    fuel: the fuel bounds the nesting and changes nothing else. *)

Lemma extends_refl {A} (m : M A) : extends m m.
Proof. intros s _. reflexivity. Qed.

Lemma extends_bind {A B} (m1 m2 : M A) (k1 k2 : A -> M B) :
  extends m1 m2 -> (forall a, extends (k1 a) (k2 a)) ->
  extends (bind m1 k1) (bind m2 k2).
Proof.
  intros Hm Hk s. unfold bind. specialize (Hm s).
  destruct (m1 s) as [[a | e |] s1]; simpl in *.
  - intros H. rewrite Hm by discriminate. apply Hk. exact H.
  - intros _. rewrite Hm by discriminate. reflexivity.
  - intros H. contradiction.
Qed.

Section FuelBody.

Variables rec1 rec2 : QueryBundle -> option string -> Z -> M Response.
Hypothesis extends_rec : forall q id level, extends (rec1 q id level) (rec2 q id level).

Lemma extends_fetch_recursive_nodes_body nws q level :
  extends (_fetch_recursive_nodes_body rec1 nws q level)
          (_fetch_recursive_nodes_body rec2 nws q level).
Proof.
  unfold _fetch_recursive_nodes_body. destruct (node nws).
  - apply extends_refl.
  - apply extends_bind; [apply extends_rec | intros r; apply extends_refl].
Qed.

Lemma extends_for_node_with_score nodes q level acc srcs :
  extends (for_node_with_score rec1 nodes q level acc srcs)
          (for_node_with_score rec2 nodes q level acc srcs).
Proof.
  revert acc srcs.
  induction nodes as [| nws rest IH]; intros acc srcs; simpl.
  - apply extends_refl.
  - apply extends_bind; [apply extends_fetch_recursive_nodes_body | ].
    intros [nws' more]. apply IH.
Qed.

Lemma extends_retrieve_and_synthesize qe q level event_id :
  extends (retrieve_and_synthesize rec1 qe q level event_id)
          (retrieve_and_synthesize rec2 qe q level event_id).
Proof.
  unfold retrieve_and_synthesize.
  do 4 (apply extends_bind; [apply extends_refl | intros ? ]).
  apply extends_bind; [ | intros ?; apply extends_refl ].
  match goal with |- extends (if ?b then _ else _) _ => destruct b end.
  - apply extends_bind; [apply extends_for_node_with_score | ].
    intros [ns srcs]. apply extends_refl.
  - apply extends_refl.
Qed.

Lemma extends_query_index_body q id level :
  extends (_query_index_body rec1 q id level) (_query_index_body rec2 q id level).
Proof.
  unfold _query_index_body.
  do 3 (apply extends_bind; [apply extends_refl | intros ? ]).
  apply extends_retrieve_and_synthesize.
Qed.

End FuelBody.

Lemma query_index_fuel_mono fuel fuel' q id level :
  (fuel <= fuel')%nat ->
  extends (_query_index fuel q id level) (_query_index fuel' q id level).
Proof.
  revert fuel' q id level.
  induction fuel as [| fuel IH]; intros fuel' q id level Hle.
  - intros s H. simpl in H. contradiction.
  - destruct fuel' as [| fuel']; [lia | ].
    simpl. apply extends_query_index_body.
    intros q' id' level'. apply IH. lia.
Qed.

(** * The claims *)

(** ** The expansion rule *)

(** C1: for a fragment whose node is a placeholder for the identifier [I],
    [_fetch_recursive_nodes] resolves the query against [I] at [level + 1];
    when that returns a sub-response it returns a plain fragment whose text
    is the answer text of the sub-response and whose score is the score of the
    original fragment, paired with the source fragments of the sub-response;
    when the resolution raises or does not end, so does the expansion.  For
    any other fragment it returns the fragment as it is, paired with the
    empty list, and leaves the state as it is. *)
Theorem fetch_recursive_nodes_expansion fuel nws q level self :
  _fetch_recursive_nodes fuel nws q level self =
  match node nws with
  | IndexNode _ index_id =>
      match _query_index fuel q (Some index_id) (level + 1) self with
      | (Ret sub, self') =>
          (Ret ({| node := TextNode (response sub); score := score nws |},
                source_nodes sub), self')
      | (Raise e, self') => (Raise e, self')
      | (OutOfFuel, self') => (OutOfFuel, self')
      end
  | TextNode _ => (Ret (nws, []), self)
  end.
Proof.
  unfold _fetch_recursive_nodes, _fetch_recursive_nodes_body.
  destruct (node nws) as [t | t index_id]; [reflexivity | ].
  unfold bind.
  destruct (_query_index fuel q (Some index_id) (level + 1) self)
    as [[sub | e |] self']; reflexivity.
Qed.

(** The scenario of the spec: the placeholder for [B] with score 0.9 becomes
    the plain fragment [hello world] with score 0.9, with the sources of
    [B]'s response. *)
Example fetch_recursive_nodes_scenario :
  fst (_fetch_recursive_nodes 1 (Scenario.placeholder "B") Scenario.query 0
         Scenario.engine)
  = Ret ({| node := TextNode "hello world"; score := Some (9 # 10)%Q |},
         [Scenario.frag_hello]).
Proof. vm_compute. reflexivity. Qed.

Example query_scenario :
  fst (_query 2 Scenario.query Scenario.engine)
  = Ret {| response := "hello world";
           source_nodes :=
             [ {| node := TextNode "hello world"; score := Some (9 # 10)%Q |};
               Scenario.frag_hello ] |}.
Proof. vm_compute. reflexivity. Qed.

(** ** The choice of the query engine *)

(** C3: each activation of [_query_index] chooses its query engine for the
    identifier it resolves.  A custom engine registered for the identifier is
    the one chosen, whatever the graph holds for the identifier and whatever
    the top-k is; with none registered, a vector index of the graph is asked
    for its engine with the configured [similarity_top_k], and any other index
    is asked for its plain default engine. *)
Theorem query_engine_choice fuel q id level self :
  let index_id := or_else id (root_id (_graph self)) in
  _query_index (S fuel) q id level self =
    (let! event_id := on_event_start QUERY (QUERY_STR (query_str q)) in
     let! query_engine := get_query_engine index_id in
     retrieve_and_synthesize (_query_index fuel) query_engine q level event_id)
      self
  /\ (forall custom,
        _custom_query_engines self !! index_id = Some custom ->
        forall other,
          _custom_query_engines other = _custom_query_engines self ->
          get_query_engine index_id other = (Ret custom, other))
  /\ (forall index,
        _custom_query_engines self !! index_id = None ->
        all_indices (_graph self) !! index_id = Some index ->
        index_class index = VectorStoreIndex ->
        get_query_engine index_id self
        = lift (as_query_engine index (Some (_similarity_top_k self))) self)
  /\ (forall index,
        _custom_query_engines self !! index_id = None ->
        all_indices (_graph self) !! index_id = Some index ->
        index_class index = OtherIndex ->
        get_query_engine index_id self
        = lift (as_query_engine index None) self).
Proof.
  intros index_id. split; [reflexivity | ].
  repeat split.
  - intros custom Hc other Ho.
    rewrite get_query_engine_run. unfold chosen_query_engine.
    rewrite Ho, Hc. reflexivity.
  - intros index Hc Hi Hv.
    rewrite get_query_engine_run, lift_run. unfold chosen_query_engine.
    rewrite Hc, Hi, Hv. reflexivity.
  - intros index Hc Hi Hv.
    rewrite get_query_engine_run, lift_run. unfold chosen_query_engine.
    rewrite Hc, Hi, Hv. reflexivity.
Qed.

(** The three cases on the scenario's graph: a custom engine registered for
    the vector index [A], the vector index [A] itself, the generic index
    [B]. *)
Lemma query_engine_choice_witness :
  get_query_engine "A" Scenario.engine_custom_A
    = (Ret Scenario.custom_engine, Scenario.engine_custom_A)
  /\ get_query_engine "A" Scenario.engine
    = (Ret (Scenario.echo_engine [Scenario.placeholder "B"]), Scenario.engine)
  /\ get_query_engine "B" Scenario.engine
    = (Ret Scenario.engine_B, Scenario.engine).
Proof.
  split; [ | split ].
  - destruct (query_engine_choice 0 Scenario.query None 0
                Scenario.engine_custom_A) as (_ & H & _ & _).
    apply (H Scenario.custom_engine); reflexivity.
  - destruct (query_engine_choice 0 Scenario.query None 0 Scenario.engine)
      as (_ & _ & H & _).
    apply (H (Scenario.vector_index
                (Scenario.echo_engine [Scenario.placeholder "B"])));
      reflexivity.
  - destruct (query_engine_choice 0 Scenario.query (Some "B") 0
                Scenario.engine) as (_ & _ & _ & H).
    apply (H (Scenario.generic_index Scenario.engine_B)); reflexivity.
Defined.

(** ** The two entry points *)

(** C8: awaiting the coroutine made by [_aquery] and calling [_query] run
    the same resolution, [_query_index] on the root identifier at level 0,
    and end with the same response in the same state. *)
Theorem aquery_agrees_with_query fuel q self :
  await (_aquery fuel q) self = _query fuel q self
  /\ _query fuel q self
     = _query_index fuel q (Some (root_id (_graph self))) 0 self.
Proof.
  split; [reflexivity | ].
  unfold _query. apply query_index_or_else.
  rewrite or_else_root. reflexivity.
Qed.

(** ** The empty identifier *)

(** C10: [_query_index] called with the empty string as identifier does what
    it does with no identifier, which is to resolve the root identifier of the
    graph. *)
Theorem empty_index_id_is_root fuel q level self :
  _query_index fuel q (Some EmptyString) level self
  = _query_index fuel q None level self
  /\ _query_index fuel q (Some EmptyString) level self
     = _query_index fuel q (Some (root_id (_graph self))) level self.
Proof.
  split; apply query_index_or_else; [reflexivity | ].
  rewrite or_else_root. reflexivity.
Qed.

(** On a graph that holds an index under the empty identifier, it is still
    the root that answers. *)
Example empty_index_id_scenario :
  fst (_query_index 1 Scenario.query (Some EmptyString) 0
         Scenario.empty_key_engine)
  = Ret {| response := "hello world"; source_nodes := [Scenario.frag_hello] |}.
Proof. vm_compute. reflexivity. Qed.

(** ** Resolution with recursion enabled *)

(** C2: with recursion enabled, an activation of [_query_index] whose engine
    is [qe] and whose retrieval returns [nodes] applies the expansion rule to
    the fragments from first to last; when the expansions return the pairs
    [prs], its outcome is that of [synthesize] called on the query, the
    first components of [prs] in order, and the concatenation of the second
    components in order: the response as [synthesize] returned it, or the
    exception it raised. *)
Theorem query_index_recursive fuel q id level self qe nodes self1 prs self2 :
  _recursive self = true ->
  fst (get_query_engine (or_else id (root_id (_graph self))) self) = Ret qe ->
  retrieve qe q = Ok nodes ->
  config self1 = config self ->
  expand_each fuel q level nodes self1 = (Ret prs, self2) ->
  fst (_query_index (S fuel) q id level self)
  = outcome_of_result
      (synthesize qe q (map fst prs) (Some (concat (map snd prs)))).
Proof.
  intros Hrec Hqe Hnodes Hcfg Hexp.
  rewrite get_query_engine_run in Hqe. simpl in Hqe.
  rewrite query_index_S, Hqe.
  rewrite (retrieve_and_synthesize_recursive _ _ _ _ _ _ _ Hnodes)
    by exact Hrec.
  pose proof (expand_each_config_only fuel q level nodes self1
                (after_retrieve (after_query_start self q) nodes) Hcfg) as H.
  rewrite Hexp in H. simpl in H.
  destruct (expand_each fuel q level nodes
              (after_retrieve (after_query_start self q) nodes)) as [o s'].
  simpl in H. subst o. reflexivity.
Qed.

Lemma query_index_recursive_witness :
  fst (_query_index 2 Scenario.query None 0 Scenario.engine)
  = outcome_of_result
      (synthesize (Scenario.echo_engine [Scenario.placeholder "B"])
         Scenario.query
         [ {| node := TextNode "hello world"; score := Some (9 # 10)%Q |} ]
         (Some [Scenario.frag_hello])).
Proof.
  apply (query_index_recursive 1 Scenario.query None 0 Scenario.engine
           (Scenario.echo_engine [Scenario.placeholder "B"])
           [Scenario.placeholder "B"]
           Scenario.engine
           [ ({| node := TextNode "hello world"; score := Some (9 # 10)%Q |},
              [Scenario.frag_hello]) ]
           (snd (expand_each 1 Scenario.query 0 [Scenario.placeholder "B"]
                   Scenario.engine))).
  - reflexivity.
  - reflexivity.
  - reflexivity.
  - reflexivity.
  - vm_compute. reflexivity.
Defined.

(** ** Resolution with recursion disabled *)

(** C4: on an engine constructed with [recursive = false], an activation of
    [_query_index] whose engine is [qe] and whose retrieval returns [nodes]
    has the outcome of [synthesize] called on the query and [nodes] as
    retrieved, without the additional-sources argument, whatever the kinds of
    the fragments; it starts no nested activation, so that a single unit of
    fuel gives the run any larger fuel gives. *)
Theorem query_index_not_recursive fuel q id level graph custom top_k cm qe nodes :
  let self := __init__ graph custom false top_k cm in
  fst (get_query_engine (or_else id (root_id graph)) self) = Ret qe ->
  retrieve qe q = Ok nodes ->
  fst (_query_index (S fuel) q id level self)
  = outcome_of_result (synthesize qe q nodes None)
  /\ _query_index (S fuel) q id level self = _query_index 1 q id level self.
Proof.
  intros self Hqe Hnodes.
  rewrite get_query_engine_run in Hqe. simpl in Hqe.
  rewrite !query_index_S. simpl root_id. fold self. rewrite Hqe. split.
  - apply retrieve_and_synthesize_flat; [exact Hnodes | reflexivity].
  - rewrite !(retrieve_and_synthesize_run _ _ _ _ _ _ _ Hnodes). reflexivity.
Qed.

Lemma query_index_not_recursive_witness :
  fst (_query_index 1 Scenario.query None 0 (Scenario.dangling_engine false))
  = Ret {| response := "hello, summary";
           source_nodes := [Scenario.frag_hello; Scenario.placeholder "Z"] |}.
Proof.
  apply (query_index_not_recursive 0 Scenario.query None 0
           Scenario.dangling_graph None DEFAULT_SIMILARITY_TOP_K
           Scenario.no_events
           (Scenario.echo_engine [Scenario.frag_hello; Scenario.placeholder "Z"])
           [Scenario.frag_hello; Scenario.placeholder "Z"]).
  - reflexivity.
  - reflexivity.
Defined.

(** ** A single index without placeholders *)

(** C7: on a graph of a single index, with [recursive = true], a query whose
    retrieval returns [nodes] with no placeholder among them has the outcome
    of [synthesize] called on the query, [nodes] as retrieved, and the empty
    list of additional sources. *)
Theorem single_index_plain_fragments fuel q root index custom top_k cm qe nodes :
  let graph := {| root_id := root; all_indices := {[ root := index ]} |} in
  let self := __init__ graph custom true top_k cm in
  fst (get_query_engine root self) = Ret qe ->
  retrieve qe q = Ok nodes ->
  Forall (fun nws => is_index_node (node nws) = false) nodes ->
  fst (_query (S fuel) q self)
  = outcome_of_result (synthesize qe q nodes (Some [])).
Proof.
  intros graph self Hqe Hnodes Hplain.
  rewrite get_query_engine_run in Hqe. simpl in Hqe.
  unfold _query. rewrite query_index_S. simpl or_else. rewrite Hqe.
  rewrite (retrieve_and_synthesize_recursive _ _ _ _ _ _ _ Hnodes)
    by reflexivity.
  rewrite (expand_each_plain _ _ _ _ _ Hplain).
  rewrite map_map. simpl. rewrite map_id.
  replace (concat (map snd (map (fun nws : NodeWithScore => (nws, [])) nodes)))
    with (@nil NodeWithScore); [reflexivity | ].
  clear. induction nodes as [| nws rest IH]; simpl; auto.
Qed.

Lemma single_index_plain_fragments_witness :
  fst (_query 1 Scenario.query
         (__init__ Scenario.single_graph None true DEFAULT_SIMILARITY_TOP_K
            Scenario.no_events))
  = Ret {| response := "hello world"; source_nodes := [Scenario.frag_hello] |}.
Proof.
  apply (single_index_plain_fragments 0 Scenario.query "B"
           (Scenario.generic_index Scenario.engine_B) None
           DEFAULT_SIMILARITY_TOP_K Scenario.no_events Scenario.engine_B
           [Scenario.frag_hello]).
  - reflexivity.
  - reflexivity.
  - repeat constructor.
Defined.

(** ** The frame of a query *)

(** C9: an activation of [_query_index], with all the activations nested in
    it, ends in a state whose graph, custom-engine registry, recursion flag
    and top-k are those it started with; and its outcome is a function of
    these four and of its arguments, whatever else the state holds. *)
Theorem query_leaves_engine_unchanged fuel q id level self :
  let self' := snd (_query_index fuel q id level self) in
  _graph self' = _graph self
  /\ _custom_query_engines self' = _custom_query_engines self
  /\ _recursive self' = _recursive self
  /\ _similarity_top_k self' = _similarity_top_k self
  /\ (forall other, config other = config self ->
        fst (_query_index fuel q id level other)
        = fst (_query_index fuel q id level self)).
Proof.
  intros self'.
  pose proof (framed_query_index fuel q id level self) as H.
  fold self' in H. unfold config in H. injection H as Hg Hc Hr Hk.
  repeat split; try assumption.
  intros other Ho. apply query_index_config_only. exact Ho.
Qed.

(** A second query on the state the first one left has the outcome of the
    first. *)
Lemma query_leaves_engine_unchanged_witness :
  fst (_query_index 2 Scenario.query None 0
         (snd (_query_index 2 Scenario.query None 0 Scenario.engine)))
  = fst (_query_index 2 Scenario.query None 0 Scenario.engine).
Proof.
  destruct (query_leaves_engine_unchanged 2 Scenario.query None 0
              Scenario.engine) as (_ & _ & _ & _ & H).
  apply H. vm_compute. reflexivity.
Defined.

(** ** Identifiers nothing holds *)

Lemma bind_fst_raise {A B} (m : M A) (k : A -> M B) s e :
  fst (m s) = Raise e -> fst (bind m k s) = Raise e.
Proof.
  unfold bind. destruct (m s) as [[a | e' |] s']; simpl; congruence.
Qed.

Lemma bind_fst_out_of_fuel {A B} (m : M A) (k : A -> M B) s :
  fst (m s) = OutOfFuel -> fst (bind m k s) = OutOfFuel.
Proof.
  unfold bind. destruct (m s) as [[a | e' |] s']; simpl; congruence.
Qed.

Lemma config_graph s s' : config s = config s' -> _graph s = _graph s'.
Proof. unfold config. intros H. congruence. Qed.

Lemma config_recursive s s' : config s = config s' -> _recursive s = _recursive s'.
Proof. unfold config. intros H. congruence. Qed.

Lemma config_custom s s' :
  config s = config s' -> _custom_query_engines s = _custom_query_engines s'.
Proof. unfold config. intros H. congruence. Qed.

(** An identifier held neither by the registry nor by the graph: the lookup
    of the graph raises before anything is retrieved. *)
Lemma query_index_unknown fuel q id level self :
  let index_id := or_else id (root_id (_graph self)) in
  _custom_query_engines self !! index_id = None ->
  all_indices (_graph self) !! index_id = None ->
  fst (_query_index (S fuel) q id level self) = Raise (KeyError index_id).
Proof.
  intros index_id Hc Hg. rewrite query_index_S. fold index_id.
  unfold chosen_query_engine. rewrite Hc, Hg. reflexivity.
Qed.

(** The claim as it is worded fails on the code.  An identifier the graph
    does not hold resolves through a custom engine registered for it; and
    with recursion disabled a placeholder for an identifier nothing holds is
    handed to [synthesize] as it is. *)
Lemma unknown_index_id_counterexample :
  (all_indices (_graph Scenario.engine_custom_X) !! "X" = None
   /\ fst (_query_index 1 Scenario.query (Some "X") 0 Scenario.engine_custom_X)
      = Ret {| response := "custom answer";
               source_nodes := [Scenario.frag_hello] |})
  /\ (all_indices (_graph (Scenario.dangling_engine false)) !! "Z" = None
      /\ retrieve
           (Scenario.echo_engine [Scenario.frag_hello; Scenario.placeholder "Z"])
           Scenario.query
         = Ok [Scenario.frag_hello; Scenario.placeholder "Z"]
      /\ fst (_query 1 Scenario.query (Scenario.dangling_engine false))
         = Ret {| response := "hello, summary";
                  source_nodes :=
                    [Scenario.frag_hello; Scenario.placeholder "Z"] |}).
Proof. vm_compute. repeat split; reflexivity. Qed.

(** C5, amended: resolution raises the lookup error of the graph, and returns
    no response, when the identifier it resolves (the one passed, or the root
    identifier when none or the empty one is passed) is held neither by the
    custom registry nor by the graph.  That is so at the activation called
    with the identifier; and, with recursion enabled, at an activation whose
    retrieval returns a placeholder for such an identifier after fragments
    whose expansions return. *)
Theorem unknown_index_id_fails fuel q id level self :
  let root := root_id (_graph self) in
  let index_id := or_else id root in
  (_custom_query_engines self !! index_id = None ->
   all_indices (_graph self) !! index_id = None ->
   fst (_query_index (S fuel) q id level self) = Raise (KeyError index_id))
  /\
  (forall qe pre nws post text target self1 prs self2,
     let target_id := or_else (Some target) root in
     _recursive self = true ->
     fst (get_query_engine index_id self) = Ret qe ->
     retrieve qe q = Ok (pre ++ nws :: post) ->
     node nws = IndexNode text target ->
     _custom_query_engines self !! target_id = None ->
     all_indices (_graph self) !! target_id = None ->
     config self1 = config self ->
     expand_each (S fuel) q level pre self1 = (Ret prs, self2) ->
     fst (_query_index (S (S fuel)) q id level self)
     = Raise (KeyError target_id)).
Proof.
  intros root index_id. split; [apply query_index_unknown | ].
  intros qe pre nws post text target self1 prs self2 target_id
    Hrec Hqe Hnodes Hnode Hc Hg Hcfg Hpre.
  rewrite get_query_engine_run in Hqe. simpl in Hqe.
  rewrite query_index_S. fold root. fold index_id. rewrite Hqe.
  rewrite (retrieve_and_synthesize_recursive _ _ _ _ _ _ _ Hnodes)
    by exact Hrec.
  set (s3 := after_retrieve (after_query_start self q) (pre ++ nws :: post)).
  (* the expansions of the prefix return from [s3] as they do from [self1] *)
  pose proof (expand_each_config_only (S fuel) q level pre self1 s3 Hcfg) as H.
  rewrite Hpre in H. simpl in H.
  destruct (expand_each (S fuel) q level pre s3) as [o s4] eqn:E.
  simpl in H. subst o.
  pose proof (framed_expand_each (S fuel) q level pre s3) as Hs4.
  rewrite E in Hs4. simpl in Hs4.
  (* the expansion of the placeholder raises *)
  assert (fst (expand_each (S fuel) q level (nws :: post) s4)
          = Raise (KeyError target_id)) as Hfail.
  { cbn [expand_each]. apply bind_fst_raise.
    unfold _fetch_recursive_nodes, _fetch_recursive_nodes_body.
    rewrite Hnode. apply bind_fst_raise.
    pose proof (query_index_unknown fuel q (Some target) (level + 1) s4) as Hu.
    cbv zeta in Hu. rewrite (config_graph _ _ Hs4) in Hu.
    rewrite (config_custom _ _ Hs4) in Hu.
    apply Hu; assumption. }
  rewrite (expand_each_app _ _ _ _ _ _ _ _ E).
  destruct (expand_each (S fuel) q level (nws :: post) s4) as [o s5].
  simpl in Hfail. subst o. reflexivity.
Qed.

Lemma unknown_index_id_fails_witness :
  fst (_query_index 1 Scenario.query (Some "Z") 0 Scenario.engine)
    = Raise (KeyError "Z")
  /\ fst (_query_index 2 Scenario.query None 0 (Scenario.dangling_engine true))
    = Raise (KeyError "Z").
Proof.
  split.
  - destruct (unknown_index_id_fails 0 Scenario.query (Some "Z") 0
                Scenario.engine) as [H _].
    apply H; reflexivity.
  - destruct (unknown_index_id_fails 0 Scenario.query None 0
                (Scenario.dangling_engine true)) as [_ H].
    apply (H (Scenario.echo_engine
                [Scenario.frag_hello; Scenario.placeholder "Z"])
             [Scenario.frag_hello] (Scenario.placeholder "Z") []
             "summary" "Z"
             (Scenario.dangling_engine true)
             [(Scenario.frag_hello, [])]
             (Scenario.dangling_engine true));
      reflexivity.
Defined.

(** ** Recursion without a bound *)

(** C6: nothing bounds the recursion.  The level is passed on and
    incremented, and has no effect on a run: two runs that differ in the
    level only are equal.  And resolution does not end on a graph with a
    cycle: if every identifier of a set [P] has its engine retrieve, after
    fragments that are no placeholders, a placeholder for an identifier of
    [P] again, then with recursion enabled the resolution of an identifier of
    [P] runs out of any fuel. *)
Theorem resolution_unbounded :
  (forall fuel q id level level' self,
     _query_index fuel q id level self = _query_index fuel q id level' self)
  /\ (forall (P : string -> Prop) q self,
     _recursive self = true ->
     (forall index_id, P index_id ->
        exists qe pre nws post text target,
          fst (get_query_engine index_id self) = Ret qe
          /\ retrieve qe q = Ok (pre ++ nws :: post)
          /\ Forall (fun nws => is_index_node (node nws) = false) pre
          /\ node nws = IndexNode text target
          /\ P (or_else (Some target) (root_id (_graph self)))) ->
     forall id, P (or_else id (root_id (_graph self))) ->
     forall fuel level,
       fst (_query_index fuel q id level self) = OutOfFuel).
Proof.
  split; [intros; apply query_index_level_irrelevant | ].
  intros P q self Hrec Hcycle id HP fuel level.
  cut (forall s, config s = config self ->
         fst (_query_index fuel q id level s) = OutOfFuel).
  { intros H. apply H. reflexivity. }
  revert id HP level.
  induction fuel as [| fuel IH]; intros id HP level s Hs; [reflexivity | ].
  pose proof (config_graph _ _ Hs) as Hgraph.
  rewrite query_index_S, Hgraph.
  destruct (Hcycle _ HP)
    as (qe & pre & nws & post & text & target & Hqe & Hnodes & Hpre & Hnode & HP').
  rewrite get_query_engine_run in Hqe. simpl in Hqe.
  rewrite (chosen_query_engine_config s self) by exact Hs.
  rewrite Hqe.
  rewrite (retrieve_and_synthesize_recursive _ _ _ _ _ _ _ Hnodes)
    by (rewrite <- Hrec; apply (config_recursive _ _ Hs)).
  set (s3 := after_retrieve (after_query_start s q) (pre ++ nws :: post)).
  rewrite (expand_each_app _ _ _ _ _ _ _ _ (expand_each_plain _ _ _ _ s3 Hpre)).
  assert (fst (expand_each fuel q level (nws :: post) s3) = OutOfFuel) as Hloop.
  { cbn [expand_each]. apply bind_fst_out_of_fuel.
    unfold _fetch_recursive_nodes, _fetch_recursive_nodes_body.
    rewrite Hnode. apply bind_fst_out_of_fuel.
    apply IH; [exact HP' | exact Hs]. }
  destruct (expand_each fuel q level (nws :: post) s3) as [o s4].
  simpl in Hloop. subst o. reflexivity.
Qed.

(** The root of [Scenario.cyclic_graph] retrieves a plain fragment and then
    a placeholder for the root itself. *)
Lemma resolution_unbounded_witness :
  fst (_query_index 1000 Scenario.query None 0 Scenario.cyclic_engine)
  = OutOfFuel.
Proof.
  destruct resolution_unbounded as [_ H].
  apply (H (fun index_id => index_id = "A") Scenario.query
           Scenario.cyclic_engine).
  - reflexivity.
  - intros index_id ->.
    exists (Scenario.echo_engine [Scenario.frag_hello; Scenario.placeholder "A"]),
      [Scenario.frag_hello], (Scenario.placeholder "A"), [], "summary", "A".
    repeat split. repeat constructor.
  - reflexivity.
Defined.

(** * Further properties of the methods *)

(** ** What [synthesize] is given when recursion is enabled *)

Lemma fetch_recursive_nodes_body_expanded rec nws q level s nws' more s' :
  _fetch_recursive_nodes_body rec nws q level s = (Ret (nws', more), s') ->
  expanded_from nws nws'.
Proof.
  unfold _fetch_recursive_nodes_body, expanded_from.
  destruct (node nws) as [t | t target] eqn:E.
  - intros [= <- _ _]. rewrite E. auto.
  - unfold bind.
    destruct (rec q (Some target) (level + 1) s) as [[r | e |] s1];
      try discriminate.
    intros [= <- _ _]. simpl. repeat split. discriminate.
Qed.

Lemma for_node_with_score_expanded rec nodes q level acc srcs s ns srcs' s' :
  for_node_with_score rec nodes q level acc srcs s = (Ret (ns, srcs'), s') ->
  exists new, ns = acc ++ new /\ Forall2 expanded_from nodes new.
Proof.
  revert acc srcs s.
  induction nodes as [| nws rest IH]; intros acc srcs s; simpl.
  - intros [= <- _ _]. exists []. rewrite app_nil_r. split; constructor.
  - destruct (_fetch_recursive_nodes_body rec nws q level s)
      as [[[nws' more] | e |] s1] eqn:E.
    + rewrite (bind_ret_l _ _ _ _ _ E). intros H.
      destruct (IH _ _ _ H) as (new & -> & Hnew).
      exists (nws' :: new). rewrite <- app_assoc. split; [reflexivity | ].
      constructor; [ | exact Hnew ].
      eapply fetch_recursive_nodes_body_expanded. exact E.
    + rewrite (bind_raise_l _ _ _ _ _ E). discriminate.
    + rewrite (bind_out_of_fuel_l _ _ _ _ E). discriminate.
Qed.

(** With recursion enabled, a response returned by [_query_index] is one
    that [synthesize] returned for a list of fragments that matches the
    retrieved list position by position: as many fragments, each with the
    score of the retrieved one, none of them a placeholder, and the retrieved
    fragment itself wherever that is no placeholder. *)
Theorem synthesize_is_given_expanded_fragments fuel q id level self qe nodes r :
  _recursive self = true ->
  fst (get_query_engine (or_else id (root_id (_graph self))) self) = Ret qe ->
  retrieve qe q = Ok nodes ->
  fst (_query_index (S fuel) q id level self) = Ret r ->
  exists ns srcs,
    synthesize qe q ns (Some srcs) = Ok r
    /\ Forall2 expanded_from nodes ns.
Proof.
  intros Hrec Hqe Hnodes.
  rewrite get_query_engine_run in Hqe. simpl in Hqe.
  rewrite query_index_S, Hqe.
  rewrite (retrieve_and_synthesize_run _ _ _ _ _ _ _ Hnodes).
  change (_recursive (after_query_start self q)) with (_recursive self).
  rewrite Hrec. unfold bind at 1 2.
  destruct (for_node_with_score (_query_index fuel) nodes q level [] []
              (after_retrieve (after_query_start self q) nodes))
    as [[[ns srcs] | e |] s1] eqn:E; try discriminate.
  rewrite lift_run.
  destruct (synthesize qe q ns (Some srcs)) as [r' | e] eqn:Es;
    simpl; try discriminate.
  intros [= <-]. exists ns, srcs. split; [exact Es | ].
  destruct (for_node_with_score_expanded _ _ _ _ _ _ _ _ _ _ E)
    as (new & -> & Hnew).
  exact Hnew.
Qed.

Lemma synthesize_is_given_expanded_fragments_witness :
  exists ns srcs,
    synthesize (Scenario.echo_engine [Scenario.placeholder "B"]) Scenario.query
      ns (Some srcs)
    = Ok {| response := "hello world";
            source_nodes :=
              [ {| node := TextNode "hello world"; score := Some (9 # 10)%Q |};
                Scenario.frag_hello ] |}
    /\ Forall2 expanded_from [Scenario.placeholder "B"] ns.
Proof.
  apply (synthesize_is_given_expanded_fragments 1 Scenario.query None 0
           Scenario.engine); reflexivity.
Defined.

(** ** Failures of the collaborators *)

(** [_query_index] catches nothing.  When the choice of the query engine
    raises (the lookup of the graph, or [as_query_engine]), the exception is
    the outcome and the start of the query is the only event notified; when
    [retrieve] raises, the exception is the outcome and the starts of the
    query and of the retrieval are notified and never ended. *)
Theorem collaborator_failure_is_not_caught fuel q id level self :
  let index_id := or_else id (root_id (_graph self)) in
  let log := event_log (callback_manager self) in
  let n := next_event_id (callback_manager self) in
  let self' := snd (_query_index (S fuel) q id level self) in
  (forall e,
     fst (get_query_engine index_id self) = Raise e ->
     fst (_query_index (S fuel) q id level self) = Raise e
     /\ event_log (callback_manager self')
        = log ++ [EventStart QUERY (QUERY_STR (query_str q)) n])
  /\ (forall qe e,
     fst (get_query_engine index_id self) = Ret qe ->
     retrieve qe q = Err e ->
     fst (_query_index (S fuel) q id level self) = Raise e
     /\ event_log (callback_manager self')
        = log ++ [EventStart QUERY (QUERY_STR (query_str q)) n;
                  EventStart RETRIEVE NoPayload (S n)]).
Proof.
  intros index_id log n self'. subst self'. split.
  - intros e He. rewrite get_query_engine_run in He. simpl in He.
    rewrite query_index_S. fold index_id. rewrite He. split; reflexivity.
  - intros qe e Hqe He. rewrite get_query_engine_run in Hqe. simpl in Hqe.
    rewrite query_index_S. fold index_id. rewrite Hqe.
    unfold retrieve_and_synthesize, bind at 1 2. simpl. rewrite He. simpl.
    rewrite <- app_assoc. split; reflexivity.
Qed.

Lemma collaborator_failure_is_not_caught_witness :
  (fst (_query_index 1 Scenario.query (Some "Z") 0 broken_engine)
   = Raise (KeyError "Z")
   /\ event_log (callback_manager
                   (snd (_query_index 1 Scenario.query (Some "Z") 0
                           broken_engine)))
      = [EventStart QUERY (QUERY_STR "what does B hold?") 0])
  /\ (fst (_query_index 1 Scenario.query (Some "B") 0 broken_engine)
      = Raise (EngineError "retrieval failed")
      /\ event_log (callback_manager
                      (snd (_query_index 1 Scenario.query (Some "B") 0
                              broken_engine)))
         = [EventStart QUERY (QUERY_STR "what does B hold?") 0;
            EventStart RETRIEVE NoPayload 1]).
Proof.
  split.
  - destruct (collaborator_failure_is_not_caught 0 Scenario.query (Some "Z") 0
                broken_engine) as [H _].
    apply (H (KeyError "Z")). reflexivity.
  - destruct (collaborator_failure_is_not_caught 0 Scenario.query (Some "B") 0
                broken_engine) as [_ H].
    apply (H failing_engine (EngineError "retrieval failed")); reflexivity.
Defined.

Lemma fetch_recursive_nodes_config_only fuel nws q level s s' :
  config s = config s' ->
  fst (_fetch_recursive_nodes fuel nws q level s)
  = fst (_fetch_recursive_nodes fuel nws q level s').
Proof.
  intros H. apply outcome_rel_eq.
  apply (related_fetch_recursive_nodes_body same_config); [ | exact H ].
  intros q' id' l l'.
  apply (related_query_index same_config (fun _ _ => True));
    unfold same_config; auto.
Qed.

(** With recursion enabled, the first expansion that raises ends the
    resolution: when the expansions of the fragments before a fragment return
    and the expansion of that fragment raises, [_query_index] raises the same
    exception, whatever fragments follow. *)
Theorem expansion_failure_is_not_caught
    fuel q id level self qe pre nws post self1 prs self2 e :
  _recursive self = true ->
  fst (get_query_engine (or_else id (root_id (_graph self))) self) = Ret qe ->
  retrieve qe q = Ok (pre ++ nws :: post) ->
  config self1 = config self ->
  expand_each fuel q level pre self1 = (Ret prs, self2) ->
  fst (_fetch_recursive_nodes fuel nws q level self2) = Raise e ->
  fst (_query_index (S fuel) q id level self) = Raise e.
Proof.
  intros Hrec Hqe Hnodes Hcfg Hpre Hfail.
  rewrite get_query_engine_run in Hqe. simpl in Hqe.
  rewrite query_index_S, Hqe.
  rewrite (retrieve_and_synthesize_recursive _ _ _ _ _ _ _ Hnodes)
    by exact Hrec.
  set (s3 := after_retrieve (after_query_start self q) (pre ++ nws :: post)).
  pose proof (expand_each_config_only fuel q level pre self1 s3 Hcfg) as H.
  rewrite Hpre in H. simpl in H.
  destruct (expand_each fuel q level pre s3) as [o s4] eqn:E.
  simpl in H. subst o.
  pose proof (framed_expand_each fuel q level pre s3) as Hs4.
  rewrite E in Hs4. simpl in Hs4.
  pose proof (framed_expand_each fuel q level pre self1) as Hs2.
  rewrite Hpre in Hs2. simpl in Hs2.
  assert (fst (expand_each fuel q level (nws :: post) s4) = Raise e) as Hloop.
  { cbn [expand_each]. apply bind_fst_raise.
    rewrite <- Hfail. apply fetch_recursive_nodes_config_only.
    rewrite Hs4, Hs2. symmetry. exact Hcfg. }
  rewrite (expand_each_app _ _ _ _ _ _ _ _ E).
  destruct (expand_each fuel q level (nws :: post) s4) as [o s5].
  simpl in Hloop. subst o. reflexivity.
Qed.

Lemma expansion_failure_is_not_caught_witness :
  fst (_query_index 2 Scenario.query None 0 broken_engine)
  = Raise (EngineError "retrieval failed").
Proof.
  apply (expansion_failure_is_not_caught 1 Scenario.query None 0 broken_engine
           (Scenario.echo_engine [Scenario.frag_hello; Scenario.placeholder "B"])
           [Scenario.frag_hello] (Scenario.placeholder "B") []
           broken_engine [(Scenario.frag_hello, [])] broken_engine);
    reflexivity.
Defined.

(** ** Graphs without cycles *)

Lemma outcome_of_result_ends {A} (r : result A) : outcome_of_result r <> OutOfFuel.
Proof. destruct r; discriminate. Qed.

Lemma chosen_query_engine_ends self index_id :
  chosen_query_engine self index_id <> OutOfFuel.
Proof.
  unfold chosen_query_engine.
  destruct (_custom_query_engines self !! index_id); [discriminate | ].
  destruct (all_indices (_graph self) !! index_id) as [index |];
    [ | discriminate ].
  destruct (index_class index); apply outcome_of_result_ends.
Qed.

Lemma targets_elem root nodes nws text target :
  nws ∈ nodes -> node nws = IndexNode text target ->
  or_else (Some target) root ∈ targets root nodes.
Proof.
  intros Hin Hnode. unfold targets. apply list_elem_of_omap.
  exists nws. rewrite Hnode. auto.
Qed.

Section Ranked.

Variable rank : string -> nat.
Variable q : QueryBundle.
Variable self : ComposableGraphQueryEngine.

Hypothesis rank_decreases : forall index_id qe nodes,
  fst (get_query_engine index_id self) = Ret qe ->
  retrieve qe q = Ok nodes ->
  Forall (fun target => (rank target < rank index_id)%nat)
    (targets (root_id (_graph self)) nodes).

(** The expansions of a list end when the expansion of each of its fragments
    ends, from any state of the configuration. *)
Lemma expand_each_ends fuel level nodes :
  (forall nws s, nws ∈ nodes -> config s = config self ->
     fst (_fetch_recursive_nodes fuel nws q level s) <> OutOfFuel) ->
  forall s, config s = config self ->
    fst (expand_each fuel q level nodes s) <> OutOfFuel.
Proof.
  induction nodes as [| nws rest IH]; intros Hfetch s Hs; simpl.
  - discriminate.
  - pose proof (Hfetch nws s (list_elem_of_here _ _) Hs) as Hn.
    pose proof (framed_fetch_recursive_nodes fuel nws q level s) as Hf.
    unfold bind at 1.
    destruct (_fetch_recursive_nodes fuel nws q level s) as [[pr | e |] s1];
      simpl in *; [ | discriminate | contradiction ].
    assert (fst (expand_each fuel q level rest s1) <> OutOfFuel) as Hr.
    { apply IH; [ | congruence ].
      intros nws' s' Hin. apply Hfetch. apply list_elem_of_further, Hin. }
    unfold bind.
    destruct (expand_each fuel q level rest s1) as [[prs | e |] s2];
      simpl in *; [discriminate | discriminate | contradiction].
Qed.

Lemma ranked_query_index_ends fuel :
  forall id level s,
    config s = config self ->
    (rank (or_else id (root_id (_graph self))) < fuel)%nat ->
    fst (_query_index fuel q id level s) <> OutOfFuel.
Proof.
  induction fuel as [| fuel IH]; intros id level s Hs Hlt; [lia | ].
  rewrite query_index_S, (config_graph _ _ Hs).
  rewrite (chosen_query_engine_config s self) by exact Hs.
  set (index_id := or_else id (root_id (_graph self))) in *.
  destruct (chosen_query_engine self index_id) as [qe | e |] eqn:Hqe;
    [ | discriminate | exfalso; eapply chosen_query_engine_ends; exact Hqe ].
  destruct (retrieve qe q) as [nodes | e] eqn:Hnodes;
    [ | rewrite (retrieve_and_synthesize_fails _ _ _ _ _ _ _ Hnodes);
        discriminate ].
  destruct (_recursive self) eqn:Hrec.
  - rewrite (retrieve_and_synthesize_recursive _ _ _ _ _ _ _ Hnodes)
      by (rewrite <- Hrec; apply (config_recursive _ _ Hs)).
    assert (fst (expand_each fuel q level nodes
                   (after_retrieve (after_query_start s q) nodes))
            <> OutOfFuel) as Hloop.
    { apply expand_each_ends; [ | exact Hs ].
      intros nws s' Hin Hs'.
      unfold _fetch_recursive_nodes, _fetch_recursive_nodes_body.
      destruct (node nws) as [t | t target] eqn:Hnode; [discriminate | ].
      assert (fst (_query_index fuel q (Some target) (level + 1) s')
              <> OutOfFuel) as Hsub.
      { apply IH; [exact Hs' | ].
        assert (rank (or_else (Some target) (root_id (_graph self)))
                < rank index_id)%nat; [ | lia ].
        assert (fst (get_query_engine index_id self) = Ret qe) as Hq
          by (rewrite get_query_engine_run; exact Hqe).
        pose proof (rank_decreases index_id qe nodes Hq Hnodes) as Hall.
        rewrite Forall_forall in Hall. apply Hall.
        eapply targets_elem; eassumption. }
      unfold bind.
      destruct (_query_index fuel q (Some target) (level + 1) s')
        as [[r | e |] s1]; simpl in *;
        [discriminate | discriminate | contradiction]. }
    destruct (expand_each fuel q level nodes
                (after_retrieve (after_query_start s q) nodes))
      as [[prs | e |] s1]; simpl in *;
      [apply outcome_of_result_ends | discriminate | contradiction].
  - rewrite (retrieve_and_synthesize_flat _ _ _ _ _ _ _ Hnodes)
      by (rewrite <- Hrec; apply (config_recursive _ _ Hs)).
    apply outcome_of_result_ends.
Qed.

End Ranked.

(** Resolution ends on a graph without cycles.  If every identifier has a
    rank, and the placeholders an engine retrieves for an identifier all point
    to identifiers of smaller rank, then resolving an identifier of rank [n]
    ends, with a response or an exception, within [n + 1] nested activations,
    and allowing more nesting changes nothing of the run. *)
Theorem resolution_ends_on_ranked_graph (rank : string -> nat) q self :
  (forall index_id qe nodes,
     fst (get_query_engine index_id self) = Ret qe ->
     retrieve qe q = Ok nodes ->
     Forall (fun target => (rank target < rank index_id)%nat)
       (targets (root_id (_graph self)) nodes)) ->
  forall id level fuel,
    (rank (or_else id (root_id (_graph self))) < fuel)%nat ->
    fst (_query_index fuel q id level self) <> OutOfFuel
    /\ _query_index fuel q id level self
       = _query_index (S (rank (or_else id (root_id (_graph self)))))
           q id level self.
Proof.
  intros Hrank id level fuel Hlt.
  assert (fst (_query_index (S (rank (or_else id (root_id (_graph self)))))
                 q id level self) <> OutOfFuel) as Hends.
  { apply (ranked_query_index_ends rank q self Hrank); [reflexivity | lia]. }
  assert (_query_index fuel q id level self
          = _query_index (S (rank (or_else id (root_id (_graph self)))))
              q id level self) as Heq.
  { apply query_index_fuel_mono; [lia | exact Hends]. }
  split; [rewrite Heq; exact Hends | exact Heq].
Qed.

Lemma resolution_ends_on_ranked_graph_witness :
  fst (_query_index 7 Scenario.query None 0 Scenario.engine) <> OutOfFuel
  /\ _query_index 7 Scenario.query None 0 Scenario.engine
     = _query_index 2 Scenario.query None 0 Scenario.engine.
Proof.
  apply (resolution_ends_on_ranked_graph scenario_rank Scenario.query
           Scenario.engine).
  - intros index_id qe nodes Hqe Hnodes.
    rewrite get_query_engine_run in Hqe. simpl in Hqe.
    unfold chosen_query_engine in Hqe. simpl in Hqe.
    rewrite lookup_empty in Hqe.
    destruct (decide (index_id = "A")) as [-> | HA].
    + vm_compute in Hqe. injection Hqe as <-.
      vm_compute in Hnodes. injection Hnodes as <-.
      repeat constructor.
    + rewrite lookup_insert_ne in Hqe by congruence.
      destruct (decide (index_id = "B")) as [-> | HB].
      * vm_compute in Hqe. injection Hqe as <-.
        vm_compute in Hnodes. injection Hnodes as <-.
        constructor.
      * rewrite lookup_singleton_ne in Hqe by congruence. discriminate.
  - vm_compute. lia.
Defined.

(** ** The events of a query *)

Lemma appending_ret {A} (a : A) : appending (ret a).
Proof. intros s. exists []. simpl. rewrite app_nil_r. reflexivity. Qed.

Lemma appending_raise {A} (e : exn) : appending (@raise A e).
Proof. intros s. exists []. simpl. rewrite app_nil_r. reflexivity. Qed.

Lemma appending_out_of_fuel {A} : appending (@out_of_fuel A).
Proof. intros s. exists []. simpl. rewrite app_nil_r. reflexivity. Qed.

Lemma appending_gets {A} (f : ComposableGraphQueryEngine -> A) :
  appending (gets f).
Proof. intros s. exists []. simpl. rewrite app_nil_r. reflexivity. Qed.

Lemma appending_lift {A} (r : result A) : appending (lift r).
Proof. destruct r; [apply appending_ret | apply appending_raise]. Qed.

Lemma appending_on_event_start ty payload :
  appending (on_event_start ty payload).
Proof. intros s. eexists. reflexivity. Qed.

Lemma appending_on_event_end ty payload event_id :
  appending (on_event_end ty payload event_id).
Proof. intros s. eexists. reflexivity. Qed.

Lemma appending_bind {A B} (m : M A) (k : A -> M B) :
  appending m -> (forall a, appending (k a)) -> appending (bind m k).
Proof.
  intros Hm Hk s. unfold bind. destruct (Hm s) as [l1 H1].
  destruct (m s) as [[a | e |] s1]; simpl in *; eauto.
  destruct (Hk a s1) as [l2 H2]. exists (l1 ++ l2).
  rewrite H2, H1, app_assoc. reflexivity.
Qed.

#[local] Hint Resolve appending_ret appending_raise appending_out_of_fuel
  appending_gets appending_lift appending_on_event_start
  appending_on_event_end : engine.

Lemma appending_get_query_engine index_id :
  appending (get_query_engine index_id).
Proof.
  intros s. exists []. rewrite get_query_engine_run, app_nil_r. reflexivity.
Qed.

Section AppendingBody.

Variable rec : QueryBundle -> option string -> Z -> M Response.
Hypothesis appending_rec : forall q id level, appending (rec q id level).

Lemma appending_fetch_recursive_nodes_body nws q level :
  appending (_fetch_recursive_nodes_body rec nws q level).
Proof.
  unfold _fetch_recursive_nodes_body. destruct (node nws).
  - auto with engine.
  - apply appending_bind; [apply appending_rec | intros r; auto with engine].
Qed.

Lemma appending_for_node_with_score nodes q level acc srcs :
  appending (for_node_with_score rec nodes q level acc srcs).
Proof.
  revert acc srcs.
  induction nodes as [| nws rest IH]; intros acc srcs; simpl.
  - auto with engine.
  - apply appending_bind; [apply appending_fetch_recursive_nodes_body | ].
    intros [nws' more]. apply IH.
Qed.

(** The part of [_query_index] between the end of the retrieval and the end
    of the query. *)
Lemma appending_synthesis qe q level nodes (recursive : bool) :
  appending
    (if recursive then
       let! (nodes_for_synthesis, additional_source_nodes) :=
         for_node_with_score rec nodes q level [] [] in
       lift (synthesize qe q nodes_for_synthesis (Some additional_source_nodes))
     else lift (synthesize qe q nodes None)).
Proof.
  destruct recursive; [ | auto with engine ].
  apply appending_bind; [apply appending_for_node_with_score | ].
  intros [ns srcs]. auto with engine.
Qed.

Lemma appending_retrieve_and_synthesize qe q level event_id :
  appending (retrieve_and_synthesize rec qe q level event_id).
Proof.
  unfold retrieve_and_synthesize.
  do 4 (apply appending_bind; [auto with engine | intros ? ]).
  apply appending_bind; [apply appending_synthesis | intros r ].
  apply appending_bind; [auto with engine | intros _; auto with engine ].
Qed.

Lemma appending_query_index_body q id level :
  appending (_query_index_body rec q id level).
Proof.
  unfold _query_index_body.
  do 2 (apply appending_bind; [auto with engine | intros ? ]).
  apply appending_bind; [apply appending_get_query_engine | intros qe ].
  apply appending_retrieve_and_synthesize.
Qed.

End AppendingBody.

Lemma appending_query_index fuel q id level :
  appending (_query_index fuel q id level).
Proof.
  revert q id level.
  induction fuel as [| fuel IH]; intros q id level; simpl.
  - apply appending_out_of_fuel.
  - apply appending_query_index_body. exact IH.
Qed.

(** The events of an activation of [_query_index].  Whatever its outcome,
    the events notified before it stay in the log, and the first one it adds
    is the start of the query, with the query string.  When it returns a
    response, the last one it adds is the end of the query, under the name
    the start was given and with the response returned. *)
Theorem query_events_are_bracketed fuel q id level self :
  let log := event_log (callback_manager self) in
  let n := next_event_id (callback_manager self) in
  let started := EventStart QUERY (QUERY_STR (query_str q)) n in
  let self' := snd (_query_index (S fuel) q id level self) in
  (exists rest, event_log (callback_manager self') = log ++ started :: rest)
  /\ (forall r,
        fst (_query_index (S fuel) q id level self) = Ret r ->
        exists inner,
          event_log (callback_manager self')
          = log ++ started :: inner ++ [EventEnd QUERY (RESPONSE r) n]).
Proof.
  intros log n started self'. subst self'.
  rewrite query_index_S.
  destruct (chosen_query_engine self (or_else id (root_id (_graph self))))
    as [qe | e |].
  - split.
    + destruct (appending_retrieve_and_synthesize (_query_index fuel)
                  (appending_query_index fuel) qe q level n
                  (after_query_start self q)) as [more H].
      exists more. etransitivity; [exact H | ].
      simpl. rewrite <- app_assoc. reflexivity.
    + destruct (retrieve qe q) as [nodes | e] eqn:Hnodes;
        [ | rewrite (retrieve_and_synthesize_fails _ _ _ _ _ _ _ Hnodes);
            discriminate ].
      rewrite (retrieve_and_synthesize_run _ _ _ _ _ _ _ Hnodes).
      set (s3 := after_retrieve (after_query_start self q) nodes).
      match goal with
      | |- context [bind ?m _ s3] =>
          assert (appending m) as Happ
            by (apply appending_synthesis, appending_query_index);
          destruct (Happ s3) as [more H]; clear Happ;
          destruct (m s3) as [[r' | e |] s4] eqn:E;
          [ rewrite !(bind_ret_l _ _ _ _ _ E)
          | rewrite !(bind_raise_l _ _ _ _ _ E); intros r0; discriminate
          | rewrite !(bind_out_of_fuel_l _ _ _ _ E); intros r0; discriminate ]
      end.
      intros r [= <-].
      exists (EventStart RETRIEVE NoPayload (S n)
              :: EventEnd RETRIEVE (NODES nodes) (S n) :: more).
      simpl in H. simpl. rewrite H. rewrite <- !app_assoc. reflexivity.
  - split; [exists []; reflexivity | discriminate].
  - split; [exists []; reflexivity | discriminate].
Qed.

Lemma query_events_are_bracketed_witness :
  exists inner,
    event_log (callback_manager
                 (snd (_query_index 2 Scenario.query None 0 Scenario.engine)))
    = [] ++ EventStart QUERY (QUERY_STR "what does B hold?") 0
         :: inner
         ++ [EventEnd QUERY
               (RESPONSE
                  {| response := "hello world";
                     source_nodes :=
                       [ {| node := TextNode "hello world";
                            score := Some (9 # 10)%Q |};
                         Scenario.frag_hello ] |}) 0].
Proof.
  destruct (query_events_are_bracketed 1 Scenario.query None 0 Scenario.engine)
    as [_ H].
  apply H. vm_compute. reflexivity.
Defined.

(** ** A root over a child *)

Lemma map_fst_plain (nodes : list NodeWithScore) :
  map fst (map (fun nws : NodeWithScore => (nws, @nil NodeWithScore)) nodes)
  = nodes.
Proof. induction nodes as [| nws rest IH]; simpl; congruence. Qed.

Lemma concat_snd_plain (nodes : list NodeWithScore) :
  concat (map snd
            (map (fun nws : NodeWithScore => (nws, @nil NodeWithScore)) nodes))
  = [].
Proof. induction nodes as [| nws rest IH]; simpl; auto. Qed.

(** An activation whose retrieval returns no placeholder, from any state. *)
Lemma query_index_plain fuel q id level s qe nodes :
  _recursive s = true ->
  chosen_query_engine s (or_else id (root_id (_graph s))) = Ret qe ->
  retrieve qe q = Ok nodes ->
  Forall (fun nws => is_index_node (node nws) = false) nodes ->
  fst (_query_index (S fuel) q id level s)
  = outcome_of_result (synthesize qe q nodes (Some [])).
Proof.
  intros Hrec Hqe Hnodes Hplain.
  rewrite query_index_S, Hqe.
  rewrite (retrieve_and_synthesize_recursive _ _ _ _ _ _ _ Hnodes)
    by exact Hrec.
  rewrite (expand_each_plain _ _ _ _ _ Hplain).
  rewrite map_fst_plain, concat_snd_plain. reflexivity.
Qed.

(** A root whose retrieval holds one placeholder, with score [S], for a
    child whose own retrieval holds none.  When the child's [synthesize]
    returns a response for its retrieved fragments and no additional sources,
    the outcome at the root is that of the root's [synthesize] on the
    retrieved list with the placeholder replaced, in its place, by a plain
    fragment with the child's answer as text and the score [S], and with the
    sources of the child's response as additional sources. *)
Theorem root_over_child
    fuel q id level self qe pre placeholder post text target
    child_qe child_nodes child_response :
  let root := root_id (_graph self) in
  _recursive self = true ->
  fst (get_query_engine (or_else id root) self) = Ret qe ->
  retrieve qe q = Ok (pre ++ placeholder :: post) ->
  Forall (fun nws => is_index_node (node nws) = false) pre ->
  Forall (fun nws => is_index_node (node nws) = false) post ->
  node placeholder = IndexNode text target ->
  fst (get_query_engine (or_else (Some target) root) self) = Ret child_qe ->
  retrieve child_qe q = Ok child_nodes ->
  Forall (fun nws => is_index_node (node nws) = false) child_nodes ->
  synthesize child_qe q child_nodes (Some []) = Ok child_response ->
  fst (_query_index (S (S fuel)) q id level self)
  = outcome_of_result
      (synthesize qe q
         (pre ++ {| node := TextNode (response child_response);
                    score := score placeholder |} :: post)
         (Some (source_nodes child_response))).
Proof.
  intros root Hrec Hqe Hnodes Hpre Hpost Hnode Hcqe Hcnodes Hcplain Hcsyn.
  rewrite get_query_engine_run in Hqe, Hcqe. simpl in Hqe, Hcqe.
  rewrite query_index_S. fold root. rewrite Hqe.
  rewrite (retrieve_and_synthesize_recursive _ _ _ _ _ _ _ Hnodes)
    by exact Hrec.
  set (s3 := after_retrieve (after_query_start self q)
               (pre ++ placeholder :: post)).
  rewrite (expand_each_app _ _ _ _ _ _ _ _
             (expand_each_plain (S fuel) q level pre s3 Hpre)).
  cbn [expand_each].
  (* the expansion of the placeholder *)
  assert (fst (_query_index (S fuel) q (Some target) (level + 1) s3)
          = Ret child_response) as Hchild.
  { rewrite (query_index_plain fuel q (Some target) (level + 1) s3
               child_qe child_nodes); try assumption.
    rewrite Hcsyn. reflexivity. }
  unfold _fetch_recursive_nodes at 1, _fetch_recursive_nodes_body.
  rewrite Hnode.
  destruct (_query_index (S fuel) q (Some target) (level + 1) s3)
    as [o s4] eqn:E.
  simpl in Hchild. subst o.
  rewrite (bind_ret_l _ _ _ _ _
             (bind_ret_l _ _ _ _ _ E : bind _ _ s3 = (Ret _, s4))).
  rewrite (bind_ret_l _ _ _ _ _ (expand_each_plain (S fuel) q level post s4 Hpost)).
  unfold ret. cbn [fst].
  rewrite map_app, map_fst_plain. cbn [map fst].
  rewrite map_fst_plain.
  rewrite !map_app, concat_app, concat_snd_plain. cbn [map snd concat].
  rewrite concat_snd_plain, app_nil_r. reflexivity.
Qed.

Lemma root_over_child_witness :
  fst (_query_index 2 Scenario.query None 0 Scenario.engine)
  = Ret {| response := "hello world";
           source_nodes :=
             [ {| node := TextNode "hello world"; score := Some (9 # 10)%Q |};
               Scenario.frag_hello ] |}.
Proof.
  apply (root_over_child 0 Scenario.query None 0 Scenario.engine
           (Scenario.echo_engine [Scenario.placeholder "B"])
           [] (Scenario.placeholder "B") [] "summary" "B"
           Scenario.engine_B [Scenario.frag_hello]
           {| response := "hello world";
              source_nodes := [Scenario.frag_hello] |});
    try reflexivity; repeat constructor.
Defined.

(** ** Started and ended events *)

Lemma count_starts_app l1 l2 :
  count_starts (l1 ++ l2) = (count_starts l1 + count_starts l2)%nat.
Proof.
  induction l1 as [| [ty p i | ty p i] l1 IH]; simpl; auto.
Qed.

Lemma count_ends_app l1 l2 :
  count_ends (l1 ++ l2) = (count_ends l1 + count_ends l2)%nat.
Proof.
  induction l1 as [| [ty p i | ty p i] l1 IH]; simpl; auto.
Qed.

Lemma settled_ret {A} (a : A) : settled (ret a).
Proof. intros s. exists []. simpl. rewrite app_nil_r. auto. Qed.

Lemma settled_lift {A} (r : result A) : settled (lift r).
Proof.
  intros s. exists []. rewrite lift_run, app_nil_r.
  destruct r; simpl; auto.
Qed.

Lemma settled_bind {A B} (m : M A) (k : A -> M B) :
  settled m -> (forall a, settled (k a)) -> settled (bind m k).
Proof.
  intros Hm Hk s. unfold bind. destruct (Hm s) as (l1 & H1 & C1).
  destruct (m s) as [[a | e |] s1]; simpl in *; eauto.
  destruct (Hk a s1) as (l2 & H2 & C2). exists (l1 ++ l2).
  rewrite H2, H1, app_assoc, count_starts_app, count_ends_app.
  split; [reflexivity | ].
  destruct (fst (k a s1)); lia.
Qed.

Section SettledBody.

Variable rec : QueryBundle -> option string -> Z -> M Response.
Hypothesis settled_rec : forall q id level, settled (rec q id level).

Lemma settled_fetch_recursive_nodes_body nws q level :
  settled (_fetch_recursive_nodes_body rec nws q level).
Proof.
  unfold _fetch_recursive_nodes_body. destruct (node nws).
  - apply settled_ret.
  - apply settled_bind; [apply settled_rec | intros r; apply settled_ret].
Qed.

Lemma settled_for_node_with_score nodes q level acc srcs :
  settled (for_node_with_score rec nodes q level acc srcs).
Proof.
  revert acc srcs.
  induction nodes as [| nws rest IH]; intros acc srcs; simpl.
  - apply settled_ret.
  - apply settled_bind; [apply settled_fetch_recursive_nodes_body | ].
    intros [nws' more]. apply IH.
Qed.

Lemma settled_synthesis qe q level nodes (recursive : bool) :
  settled
    (if recursive then
       let! (nodes_for_synthesis, additional_source_nodes) :=
         for_node_with_score rec nodes q level [] [] in
       lift (synthesize qe q nodes_for_synthesis (Some additional_source_nodes))
     else lift (synthesize qe q nodes None)).
Proof.
  destruct recursive; [ | apply settled_lift ].
  apply settled_bind; [apply settled_for_node_with_score | ].
  intros [ns srcs]. apply settled_lift.
Qed.

End SettledBody.

(** An activation of [_query_index] that returns has ended every event it
    started, those of the activations nested in it included; one that raises
    has started more events than it has ended, as nothing ends the events
    that are open when the exception passes. *)
Theorem query_events_are_balanced fuel q id level self :
  exists more,
    event_log (callback_manager (snd (_query_index fuel q id level self)))
    = event_log (callback_manager self) ++ more
    /\ match fst (_query_index fuel q id level self) with
       | Ret _ => count_starts more = count_ends more
       | Raise _ => (count_ends more < count_starts more)%nat
       | OutOfFuel => (count_ends more <= count_starts more)%nat
       end.
Proof.
  revert q id level self.
  induction fuel as [| fuel IH]; intros q id level self.
  { exists []. simpl. rewrite app_nil_r. auto. }
  assert (forall q id level, settled (_query_index fuel q id level)) as Hrec.
  { intros q' id' level' s. destruct (IH q' id' level' s) as (more & H & C).
    exists more. split; [exact H | ].
    destruct (fst (_query_index fuel q' id' level' s)); lia. }
  rewrite query_index_S.
  destruct (chosen_query_engine self (or_else id (root_id (_graph self))))
    as [qe | e |].
  - destruct (retrieve qe q) as [nodes | e] eqn:Hnodes.
    + rewrite (retrieve_and_synthesize_run _ _ _ _ _ _ _ Hnodes).
      set (s3 := after_retrieve (after_query_start self q) nodes).
      match goal with
      | |- context [bind ?m _ s3] =>
          assert (settled m) as Hset by (apply settled_synthesis, Hrec);
          destruct (Hset s3) as (more & H & C); clear Hset;
          destruct (m s3) as [[r | e |] s4] eqn:E;
          [ rewrite !(bind_ret_l _ _ _ _ _ E)
          | rewrite !(bind_raise_l _ _ _ _ _ E)
          | rewrite !(bind_out_of_fuel_l _ _ _ _ E) ]
      end; simpl in H, C.
      * eexists. simpl. rewrite H, <- !app_assoc. split; [reflexivity | ].
        simpl. rewrite count_starts_app, count_ends_app. simpl. lia.
      * eexists. simpl. rewrite H, <- !app_assoc. split; [reflexivity | ].
        simpl. lia.
      * eexists. simpl. rewrite H, <- !app_assoc. split; [reflexivity | ].
        simpl. lia.
    + unfold retrieve_and_synthesize, bind at 1 2. simpl. rewrite Hnodes.
      simpl. eexists. rewrite <- app_assoc. split; [reflexivity | ].
      simpl. lia.
  - eexists. split; [reflexivity | ]. simpl. lia.
  - eexists. split; [reflexivity | ]. simpl. lia.
Qed.
